(** * An intrusive doubly-linked list: the model of [intrusive_list.h]

    The header declares three templates: [list_element<Tag>] (the link that a
    value embeds), [list_iterator<T, Tag>] (a cursor that holds one link
    pointer) and [list<T, Tag>] (the owner of one heap-allocated sentinel
    link).  All of the behaviour is pointer surgery on [prev]/[next] fields,
    so the model is a store of link cells addressed by location, and every
    member function is a program in a state-and-failure monad over that
    store: dereferencing a null or dangling pointer has no defined result
    and makes the program fail. *)

From stdpp Require Import functions gmap list fin_maps.

Set Default Proof Using "Type".
#[local] Set Warnings "-clear-no-such-hyp".

(** ** Pointers and link cells *)

(** An address of a [list_element<Tag>] sub-object. *)
Definition loc := nat.

(** A [list_element<Tag>*]: [None] is [nullptr]. *)
Definition ptr := option loc.

(** [struct list_element { list_element* prev; list_element* next; }] *)
Record list_element := LinkCell { prev : ptr; next : ptr }.

Global Instance list_element_eq_dec : EqDecision list_element.
Proof. solve_decision. Defined.

(** The state a link has after [list_element()] and after [unlink()]:
    [prev = next = nullptr]. *)
Definition unset : list_element := LinkCell None None.

(** The store: every live link cell, by address. *)
Abbreviation heap := (gmap loc list_element).

(** ** The monad of member functions *)

Definition M (A : Type) : Type := heap → option (A * heap).

Definition ret {A} (a : A) : M A := λ h, Some (a, h).

Definition bind {A B} (m : M A) (k : A → M B) : M B :=
  λ h, match m h with
       | Some (a, h') => k a h'
       | None => None
       end.

Declare Scope prog_scope.
Delimit Scope prog_scope with prog.
Notation "'let*' x := m 'in' k" := (bind m (λ x, k))
  (at level 10, x name, m at level 100, k at level 200,
   format "'[v' 'let*'  x  :=  m  'in' '/' k ']'") : prog_scope.
Notation "m ;;; k" := (bind m (λ _, k))
  (at level 100, k at level 200, right associativity,
   format "'[v' m  ;;; '/' k ']'") : prog_scope.
Local Open Scope prog_scope.

(** [p->prev] as an rvalue. *)
Definition get_prev (p : ptr) : M ptr :=
  λ h, match p with
       | Some a => match h !! a with
                   | Some c => Some (prev c, h)
                   | None => None
                   end
       | None => None
       end.

(** [p->next] as an rvalue. *)
Definition get_next (p : ptr) : M ptr :=
  λ h, match p with
       | Some a => match h !! a with
                   | Some c => Some (next c, h)
                   | None => None
                   end
       | None => None
       end.

(** [p->prev = v]. *)
Definition set_prev (p v : ptr) : M unit :=
  λ h, match p with
       | Some a => match h !! a with
                   | Some c => Some (tt, <[a := LinkCell v (next c)]> h)
                   | None => None
                   end
       | None => None
       end.

(** [p->next = v]. *)
Definition set_next (p v : ptr) : M unit :=
  λ h, match p with
       | Some a => match h !! a with
                   | Some c => Some (tt, <[a := LinkCell (prev c) v]> h)
                   | None => None
                   end
       | None => None
       end.

(** [&*p]: forming a reference to the pointee and taking its address again;
    the pointee has to exist. *)
Definition addr_of_deref (p : ptr) : M ptr :=
  λ h, match p with
       | Some a => match h !! a with
                   | Some _ => Some (Some a, h)
                   | None => None
                   end
       | None => None
       end.

(** ** [list_element<Tag>] *)

(** [list_element() noexcept { prev = next = nullptr; }], run on the storage
    at address [a]. *)
Definition list_element_ctor (a : loc) : M unit :=
  λ h, Some (tt, <[a := unset]> h).

(** [void unlink()] *)
Definition unlink (this : ptr) : M unit :=
  let* p := get_prev this in
  (match p with
   | Some _ => let* n := get_next this in set_next p n
   | None => ret tt
   end) ;;;
  let* n := get_next this in
  (match n with
   | Some _ => let* p := get_prev this in set_prev n p
   | None => ret tt
   end) ;;;
  set_prev this None ;;;
  set_next this None.

(** Releasing the storage of a link (the end of the owner's lifetime, or
    [delete]). *)
Definition release (this : ptr) : M unit :=
  λ h, match this with
       | Some a => match h !! a with
                   | Some _ => Some (tt, delete a h)
                   | None => None
                   end
       | None => None
       end.

(** [~list_element() { unlink(); }] followed by the release of the storage:
    what the destruction of the owning value does to its link. *)
Definition list_element_dtor (this : ptr) : M unit :=
  unlink this ;;; release this.

(** ** [list_iterator<T, Tag>] *)

(** The iterator holds one pointer, [element]; the const and the mutable
    iterator have the same representation. *)
Record list_iterator := Iterator { element : ptr }.

Global Instance list_iterator_eq_dec : EqDecision list_iterator.
Proof. solve_decision. Defined.

(** [operator==]: identity of the referenced link. *)
Definition iter_eq (a b : list_iterator) : bool :=
  bool_decide (element a = element b).

(** [operator++]: [element = element->next]. *)
Definition iter_incr (it : list_iterator) : M list_iterator :=
  let* n := get_next (element it) in ret (Iterator n).

(** [operator--]: [element = element->prev]. *)
Definition iter_decr (it : list_iterator) : M list_iterator :=
  let* p := get_prev (element it) in ret (Iterator p).

(** [operator!=]: [element != other.element]. *)
Definition iter_ne (a b : list_iterator) : bool :=
  bool_decide (element a ≠ element b).

(** [operator++(int)]: a copy [old] of the iterator is made, then
    [element = element->next; return old;].  The result is the pair
    (returned iterator, the iterator afterwards). *)
Definition iter_post_incr (it : list_iterator)
  : M (list_iterator * list_iterator) :=
  let old := Iterator (element it) in
  let* n := get_next (element it) in
  ret (old, Iterator n).

(** [operator--(int)]: a copy [old] of the iterator is made, then
    [element = element->prev; return old;]. *)
Definition iter_post_decr (it : list_iterator)
  : M (list_iterator * list_iterator) :=
  let old := Iterator (element it) in
  let* p := get_prev (element it) in
  ret (old, Iterator p).

(** ** [list<T, Tag>] *)

(** The list object [list<T, Tag>]: one pointer to its sentinel, [node]. *)
Record intrusive_list := List { node : ptr }.

(** [new list_element<Tag>()]: fresh storage, then the constructor. *)
Definition new_list_element : M ptr :=
  λ h, let a := fresh (dom h) in
       match list_element_ctor a h with
       | Some (_, h') => Some (Some a, h')
       | None => None
       end.

(** [list() { node = new list_element<Tag>(); node->next = node;
    node->prev = node; }] *)
Definition list_ctor : M intrusive_list :=
  let* node := new_list_element in
  set_next node node ;;;
  set_prev node node ;;;
  ret (List node).

(** [void clear() noexcept { node->prev = node->next = node; }] *)
Definition clear (this : intrusive_list) : M unit :=
  set_next (node this) (node this) ;;;
  set_prev (node this) (node this).

(** [list(list&& r_list) noexcept : list() { std::swap(node, r_list.node); }]
    The result is the pair (new list, moved-from list). *)
Definition list_move_ctor (r_list : intrusive_list)
  : M (intrusive_list * intrusive_list) :=
  let* this := list_ctor in
  ret (List (node r_list), List (node this)).

(** [~list() { delete(node); }]: the sentinel is destroyed, which unlinks
    it, and its storage is released. *)
Definition list_dtor (this : intrusive_list) : M unit :=
  list_element_dtor (node this).

(** [list& operator=(list&& r_list) noexcept { clear();
    std::swap(node, r_list.node); return *this; }]
    The result is the pair (assigned list, moved-from list). *)
Definition list_move_assign (this r_list : intrusive_list)
  : M (intrusive_list * intrusive_list) :=
  clear this ;;;
  ret (List (node r_list), List (node this)).

(** [void push_back(T& element) noexcept]; [x] is the address of [element]. *)
Definition push_back (this : intrusive_list) (x : loc) : M unit :=
  let* p := get_prev (node this) in
  set_next p (Some x) ;;;
  let* p := get_prev (node this) in
  set_prev (Some x) p ;;;
  set_next (Some x) (node this) ;;;
  set_prev (node this) (Some x).

(** [void pop_back() noexcept] *)
Definition pop_back (this : intrusive_list) : M unit :=
  let* p := get_prev (node this) in
  let* pp := get_prev p in
  set_prev (node this) pp ;;;
  let* p := get_prev (node this) in
  set_next p (node this).

(** [T& back() noexcept]: the address of the last element. *)
Definition back (this : intrusive_list) : M ptr :=
  let* p := get_prev (node this) in addr_of_deref p.

(** [void push_front(T& element) noexcept]; [x] is the address of [element]. *)
Definition push_front (this : intrusive_list) (x : loc) : M unit :=
  let* n := get_next (node this) in
  set_prev n (Some x) ;;;
  let* n := get_next (node this) in
  set_next (Some x) n ;;;
  set_next (node this) (Some x) ;;;
  set_prev (Some x) (node this).

(** [void pop_front() noexcept] *)
Definition pop_front (this : intrusive_list) : M unit :=
  let* n := get_next (node this) in
  let* nn := get_next n in
  set_next (node this) nn ;;;
  let* n := get_next (node this) in
  set_prev n (node this).

(** [T& front() noexcept]: the address of the first element. *)
Definition front (this : intrusive_list) : M ptr :=
  let* n := get_next (node this) in addr_of_deref n.

(** [bool empty() const noexcept { return node->next == node; }] *)
Definition empty (this : intrusive_list) : M bool :=
  let* n := get_next (node this) in ret (bool_decide (n = node this)).

(** [iterator begin() noexcept { return iterator(node->next); }] *)
Definition begin_ (this : intrusive_list) : M list_iterator :=
  let* n := get_next (node this) in ret (Iterator n).

(** [iterator end() noexcept { return iterator(node); }] *)
Definition end_ (this : intrusive_list) : M list_iterator :=
  ret (Iterator (node this)).

(** [iterator(pos->next->prev)]: how [insert], [erase] and [splice] turn a
    const iterator into a mutable one. *)
Definition mutable_of (pos : list_iterator) : M list_iterator :=
  let* n := get_next (element pos) in
  let* p := get_prev n in
  ret (Iterator p).

(** [iterator insert(const_iterator pos, T& element) noexcept]; [x] is the
    address of [element]. *)
Definition insert (this : intrusive_list) (pos : list_iterator) (x : loc)
  : M list_iterator :=
  let* mut_pos := mutable_of pos in
  (let* p := get_prev (element mut_pos) in
   set_next p (Some x)) ;;;
  (let* p := get_prev (element mut_pos) in
   let* p := addr_of_deref p in
   set_prev (Some x) p) ;;;
  set_prev (element mut_pos) (Some x) ;;;
  (let* q := addr_of_deref (element mut_pos) in
   set_next (Some x) q) ;;;
  let* p := get_prev (element mut_pos) in
  ret (Iterator p).

(** [iterator erase(const_iterator pos) noexcept] *)
Definition erase (this : intrusive_list) (pos : list_iterator)
  : M list_iterator :=
  let* mut_pos := mutable_of pos in
  (let* n := get_next (element mut_pos) in
   let* p := get_prev (element mut_pos) in
   set_next p n) ;;;
  (let* p := get_prev (element mut_pos) in
   let* n := get_next (element mut_pos) in
   set_prev n p) ;;;
  let* it := get_next (element mut_pos) in
  unlink (element mut_pos) ;;;
  ret (Iterator it).

(** [void splice(const_iterator pos, list& other, const_iterator first,
    const_iterator last) noexcept].  The body never mentions [other]. *)
Definition splice (this : intrusive_list) (pos : list_iterator)
    (other : intrusive_list) (first last : list_iterator) : M unit :=
  if iter_eq first last then ret tt else
  let* mut_pos := mutable_of pos in
  let* prev_last := (let* p := get_prev (element last) in
                     ret (Iterator p)) in
  let* mut_last := (let* p := get_prev (element last) in
                    let* n := get_next p in ret (Iterator n)) in
  let* mut_first := (let* p := get_prev (element first) in
                     let* n := get_next p in ret (Iterator n)) in
  (let* a := get_prev (element mut_first) in
   set_prev (element mut_last) a) ;;;
  (let* q := addr_of_deref (element mut_last) in
   let* a := get_prev (element mut_first) in
   set_next a q) ;;;
  (let* q := addr_of_deref (element mut_pos) in
   set_next (element prev_last) q) ;;;
  (let* a := get_prev (element mut_pos) in
   let* a := addr_of_deref a in
   set_prev (element mut_first) a) ;;;
  (let* q := addr_of_deref (element prev_last) in
   let* a := get_next (element prev_last) in
   set_prev a q) ;;;
  (let* q := addr_of_deref (element mut_first) in
   let* a := get_prev (element mut_first) in
   set_next a q).

(** ** Traversals *)

Definition fail {A} : M A := λ _, None.

(** [for (it = first; it != last; ++it) visit(&*it);], at most [fuel]
    iterations.  The result is the sequence of visited addresses. *)
Fixpoint walk_forward (fuel : nat) (last it : list_iterator) : M (list loc) :=
  if iter_eq it last then ret [] else
  match fuel, element it with
  | S fuel', Some a =>
      let* it' := iter_incr it in
      let* r := walk_forward fuel' last it' in
      ret (a :: r)
  | _, _ => fail
  end.

(** [for (it = last; it != first; ) { --it; visit(&*it); }], at most [fuel]
    iterations. *)
Fixpoint walk_backward (fuel : nat) (first it : list_iterator) : M (list loc) :=
  if iter_eq it first then ret [] else
  match fuel with
  | S fuel' =>
      let* it' := iter_decr it in
      match element it' with
      | Some a => let* r := walk_backward fuel' first it' in ret (a :: r)
      | None => fail
      end
  | 0 => fail
  end.

(** Forward traversal from [begin()] to [end()].  A store of [size h] cells
    cannot hold a longer chain of distinct links. *)
Definition traverse_forward (this : intrusive_list) : M (list loc) :=
  λ h, (let* b := begin_ this in
        let* e := end_ this in
        walk_forward (size h) e b) h.

(** Reverse traversal from [end()] back to [begin()]. *)
Definition traverse_backward (this : intrusive_list) : M (list loc) :=
  λ h, (let* b := begin_ this in
        let* e := end_ this in
        walk_backward (size h) b e) h.

(** The O(n) size helper: the number of elements between [begin()] and
    [end()]. *)
Definition size_of (this : intrusive_list) : M nat :=
  let* xs := traverse_forward this in ret (length xs).

(** ** The ring of a list *)

(** The fields of the cell at [a], when there is one. *)
Definition nxt (h : heap) (a : loc) : option ptr := next <$> h !! a.
Definition prv (h : heap) (a : loc) : option ptr := prev <$> h !! a.

(** [a] and [b] are neighbours: [a->next == b] and [b->prev == a]. *)
Definition link (h : heap) (a b : loc) : Prop :=
  nxt h a = Some (Some b) ∧ prv h b = Some (Some a).

(** Every two consecutive cells of [l] are neighbours. *)
Fixpoint path (h : heap) (l : list loc) : Prop :=
  match l with
  | a :: t => match t with
              | b :: _ => link h a b ∧ path h t
              | [] => True
              end
  | [] => True
  end.

(** The last cell of [c] is linked back to the first one. *)
Definition closes (h : heap) (c : list loc) : Prop :=
  match last c, head c with
  | Some a, Some b => link h a b
  | _, _ => False
  end.

(** [c] lists, in [next] order, the distinct cells of one circular
    doubly-linked chain. *)
Definition cyc (h : heap) (c : list loc) : Prop :=
  NoDup c ∧ path h c ∧ closes h c.

(** The list whose sentinel is [n] holds exactly the elements [xs], in this
    order: [n :: xs] is a circular chain. *)
Definition ring (h : heap) (n : loc) (xs : list loc) : Prop := cyc h (n :: xs).

Global Instance link_dec h a b : Decision (link h a b).
Proof. unfold link. apply _. Defined.

Global Instance path_dec h l : Decision (path h l).
Proof.
  induction l as [|a [|b t] IH]; simpl; [left; exact I | left; exact I |].
  apply and_dec; [apply _ | exact IH].
Defined.

Global Instance closes_dec h c : Decision (closes h c).
Proof. unfold closes. destruct (last c), (head c); apply _. Defined.

Global Instance cyc_dec h c : Decision (cyc h c).
Proof. unfold cyc. apply _. Defined.

Global Instance ring_dec h n xs : Decision (ring h n xs).
Proof. unfold ring. apply _. Defined.

(** The position before which [insert] and [splice] put their elements, and
    the position that [erase] returns: the head of the rest of the sequence,
    or the sentinel when the rest is empty. *)
Definition position (n : loc) (rest : list loc) : loc := default n (head rest).

(** The last cell of a non-empty chain [n :: xs]. *)
Definition last_of (n : loc) (xs : list loc) : loc := default n (last xs).

(** Two lists of cells share no cell. *)
Definition apart (l k : list loc) : Prop := Forall (λ q, q ∉ k) l.

Global Instance apart_dec l k : Decision (apart l k).
Proof. unfold apart. apply _. Defined.

(** ** Example stores *)

(** One list: sentinel 0 and the elements 1, 2, 3 in this order; the link
    at 4 is unset. *)
Definition store_123 : heap :=
  list_to_map
    [ (0, LinkCell (Some 3) (Some 1)); (1, LinkCell (Some 0) (Some 2));
      (2, LinkCell (Some 1) (Some 3)); (3, LinkCell (Some 2) (Some 0));
      (4, unset) ].

(** Two lists: [store_123] and a second list with sentinel 10 and the
    elements 11, 12. *)
Definition store_two_lists : heap :=
  list_to_map
    [ (0, LinkCell (Some 3) (Some 1)); (1, LinkCell (Some 0) (Some 2));
      (2, LinkCell (Some 1) (Some 3)); (3, LinkCell (Some 2) (Some 0));
      (4, unset);
      (10, LinkCell (Some 12) (Some 11)); (11, LinkCell (Some 10) (Some 12));
      (12, LinkCell (Some 11) (Some 10)) ].

(** An empty list with sentinel 0 and two unset links at 1 and 2. *)
Definition store_empty_list : heap :=
  list_to_map [ (0, LinkCell (Some 0) (Some 0)); (1, unset); (2, unset) ].

(** ** Stores and runs, for the proofs *)

(** The store after [a->next = v] and after [a->prev = v]. *)
Definition w_next (a : loc) (v : ptr) (h : heap) : heap :=
  match h !! a with
  | Some c => <[a := LinkCell (prev c) v]> h
  | None => h
  end.

Definition w_prev (a : loc) (v : ptr) (h : heap) : heap :=
  match h !! a with
  | Some c => <[a := LinkCell v (next c)]> h
  | None => h
  end.

(** [m] started in [h] returns, and its result and final store satisfy [Q]. *)
Definition wp {A} (m : M A) (h : heap) (Q : A → heap → Prop) : Prop :=
  match m h with
  | Some (a, h') => Q a h'
  | None => False
  end.

(** ** The effects of the member functions, as relations between stores *)

(** [h'] is [h] with [x] linked in between the neighbours [P] and [S]. *)
Definition linked_in (h h' : heap) (P x S : loc) : Prop :=
  dom h' = dom h ∧ link h' P x ∧ link h' x S ∧
  (∀ q, q ≠ P → q ≠ x → nxt h' q = nxt h q) ∧
  (∀ q, q ≠ S → q ≠ x → prv h' q = prv h q).

(** [h'] is [h] with [P] and [S] made neighbours; no other field changes. *)
Definition bypassed (h h' : heap) (P S : loc) : Prop :=
  dom h' = dom h ∧ link h' P S ∧
  (∀ q, q ≠ P → nxt h' q = nxt h q) ∧
  (∀ q, q ≠ S → prv h' q = prv h q).

(** [h'] is [h] with [P] and [S] made neighbours and the cell [x] reset. *)
Definition erased (h h' : heap) (P x S : loc) : Prop :=
  dom h' = dom h ∧ link h' P S ∧ h' !! x = Some unset ∧
  (∀ q, q ≠ P → q ≠ x → nxt h' q = nxt h q) ∧
  (∀ q, q ≠ S → q ≠ x → prv h' q = prv h q).

(** [h'] is [h] with the chain [f .. pl] cut out from between [A] and [L]
    and linked in between [P] and [S]. *)
Definition respliced (h h' : heap) (A f pl L P S : loc) : Prop :=
  dom h' = dom h ∧ link h' A L ∧ link h' P f ∧ link h' pl S ∧
  (∀ q, q ≠ A → q ≠ pl → q ≠ P → nxt h' q = nxt h q) ∧
  (∀ q, q ≠ L → q ≠ f → q ≠ S → prv h' q = prv h q).

(** * Programs over several lists *)

(** The state of a client program: the store, and the sentinels of the list
    objects it has constructed. *)
Record world := World { store : heap; lists : list loc }.

(** The empty program state: no link, no list. *)
Definition init : world := World ∅ [].

(** The calls a client makes.  A list object is named by the address of its
    sentinel, an element by the address of its link, a position by the
    address its iterator holds. *)
Inductive op :=
  | New_list
  | New_element (x : loc)
  | Push_front (l x : loc)
  | Push_back (l x : loc)
  | Pop_front (l : loc)
  | Pop_back (l : loc)
  | Clear (l : loc)
  | Insert (l pos x : loc)
  | Erase (l pos : loc)
  | Splice (l pos m first last : loc).

(** The elements of the list with sentinel [l], by forward traversal. *)
Definition contents (h : heap) (l : loc) : option (list loc) :=
  match traverse_forward (List (Some l)) h with
  | Some (xs, _) => Some xs
  | None => None
  end.

(** [x] is not linked in the list with sentinel [l]. *)
Definition not_in_list (h : heap) (x l : loc) : Prop :=
  match contents h l with
  | Some xs => x ∉ l :: xs
  | None => False
  end.

(** [x] is a live link that is linked in no list. *)
Definition unlinked (w : world) (x : loc) : Prop :=
  x ∈ dom (store w) ∧ Forall (not_in_list (store w) x) (lists w).

(** [pos] is a position of the list with sentinel [l]: an element or
    [end()]. *)
Definition is_position (h : heap) (l pos : loc) : Prop :=
  match contents h l with
  | Some xs => pos ∈ xs ++ [l]
  | None => False
  end.

(** [pos] is the position of an element of the list with sentinel [l]. *)
Definition is_element (h : heap) (l pos : loc) : Prop :=
  match contents h l with
  | Some xs => pos ∈ xs
  | None => False
  end.

(** The suffix of [xs] that starts at [first]. *)
Fixpoint from (first : loc) (xs : list loc) : option (list loc) :=
  match xs with
  | [] => None
  | a :: t => if decide (a = first) then Some xs else from first t
  end.

(** The prefix of [xs] that ends before [last]. *)
Fixpoint upto (last : loc) (xs : list loc) : option (list loc) :=
  match xs with
  | [] => None
  | a :: t => if decide (a = last) then Some []
              else match upto last t with
                   | Some r => Some (a :: r)
                   | None => None
                   end
  end.

(** The elements of the range [first, last) of the list with sentinel [n]
    and elements [xs], when [first] is a position that is not after the
    position [last]. *)
Definition range (n : loc) (xs : list loc) (first last : loc)
  : option (list loc) :=
  if decide (first = last) then
    if decide (first ∈ xs ++ [n]) then Some [] else None
  else
    match from first xs with
    | Some s => if decide (last = n) then Some s else upto last s
    | None => None
    end.

(** [first, last) is a range of the list with sentinel [m], and [pos] is
    outside of it when [l] is the same list. *)
Definition is_range_for (h : heap) (l pos m first last : loc) : Prop :=
  match contents h m with
  | Some ys => match range m ys first last with
               | Some r => l = m → pos ∉ r
               | None => False
               end
  | None => False
  end.

(** The stated precondition of each call. *)
Definition pre (w : world) (o : op) : Prop :=
  match o with
  | New_list => True
  | New_element x => x ∉ dom (store w)
  | Push_front l x | Push_back l x => l ∈ lists w ∧ unlinked w x
  | Pop_front l | Pop_back l =>
      l ∈ lists w ∧ ∃ x, is_element (store w) l x
  | Clear l => l ∈ lists w
  | Insert l pos x =>
      l ∈ lists w ∧ is_position (store w) l pos ∧ unlinked w x
  | Erase l pos => l ∈ lists w ∧ is_element (store w) l pos
  | Splice l pos m first last =>
      l ∈ lists w ∧ m ∈ lists w ∧ is_position (store w) l pos ∧
      is_range_for (store w) l pos m first last
  end.

Global Instance not_in_list_dec h x l : Decision (not_in_list h x l).
Proof. unfold not_in_list. destruct (contents h l); apply _. Defined.

Global Instance unlinked_dec w x : Decision (unlinked w x).
Proof. unfold unlinked. apply _. Defined.

Global Instance is_position_dec h l pos : Decision (is_position h l pos).
Proof. unfold is_position. destruct (contents h l); apply _. Defined.

Global Instance is_element_dec h l pos : Decision (is_element h l pos).
Proof. unfold is_element. destruct (contents h l); apply _. Defined.

Global Instance has_element_dec h l : Decision (∃ x, is_element h l x).
Proof.
  unfold is_element. destruct (contents h l) as [[|a t]|].
  - right. intros [x Hx]. by apply not_elem_of_nil in Hx.
  - left. exists a. apply list_elem_of_here.
  - right. by intros [x Hx].
Defined.

Global Instance is_range_for_dec h l pos m first last :
  Decision (is_range_for h l pos m first last).
Proof.
  unfold is_range_for. destruct (contents h m) as [ys|]; [|apply _].
  destruct (range m ys first last); apply _.
Defined.

Global Instance pre_dec w o : Decision (pre w o).
Proof. destruct o; simpl; apply _. Defined.

(** The store after a call that returns. *)
Definition after {A} (r : option (A * heap)) (ls : list loc) : option world :=
  match r with
  | Some (_, h') => Some (World h' ls)
  | None => None
  end.

(** One call, without any check of its precondition. *)
Definition step (o : op) (w : world) : option world :=
  let h := store w in
  match o with
  | New_list =>
      match list_ctor h with
      | Some (List (Some n), h') => Some (World h' (n :: lists w))
      | _ => None
      end
  | New_element x => after (list_element_ctor x h) (lists w)
  | Push_front l x => after (push_front (List (Some l)) x h) (lists w)
  | Push_back l x => after (push_back (List (Some l)) x h) (lists w)
  | Pop_front l => after (pop_front (List (Some l)) h) (lists w)
  | Pop_back l => after (pop_back (List (Some l)) h) (lists w)
  | Clear l => after (clear (List (Some l)) h) (lists w)
  | Insert l pos x =>
      after (insert (List (Some l)) (Iterator (Some pos)) x h) (lists w)
  | Erase l pos =>
      after (erase (List (Some l)) (Iterator (Some pos)) h) (lists w)
  | Splice l pos m first last =>
      after (splice (List (Some l)) (Iterator (Some pos)) (List (Some m))
               (Iterator (Some first)) (Iterator (Some last)) h) (lists w)
  end.

(** One call under its precondition; a call whose precondition is violated
    is not part of any run. *)
Definition run (o : op) (w : world) : option world :=
  if decide (pre w o) then step o w else None.

Fixpoint run_all (os : list op) (w : world) : option world :=
  match os with
  | [] => Some w
  | o :: os' => match run o w with
                | Some w' => run_all os' w'
                | None => None
                end
  end.

(** The invariant of a program state: every list is a ring, and no two
    lists share a cell. *)
Definition wf (w : world) : Prop :=
  ∃ cont : loc → list loc,
    (∀ l, l ∈ lists w → ring (store w) l (cont l)) ∧
    (∀ l m, l ∈ lists w → m ∈ lists w → l ≠ m →
            ∀ q, q ∈ l :: cont l → q ∉ m :: cont m).

(** A client program: two lists are constructed (their sentinels get the
    addresses 0 and 1) and four elements; three are pushed onto list 0, the
    fourth is inserted before 11; the range [10, 13) is spliced into list 1,
    13 is erased, and 12, 11 are moved in front of 10. *)
Definition example_program : list op :=
  [ New_list; New_list;
    New_element 10; New_element 11; New_element 12; New_element 13;
    Push_back 0 10; Push_back 0 11; Push_front 0 12; Insert 0 11 13;
    Splice 1 1 0 10 13; Erase 0 13; Splice 1 10 0 12 0 ].

(** The state in which the example program ends. *)
Definition example_final : world :=
  Eval vm_compute in default init (run_all example_program init).



(** * Tags: one value in several lists *)

(** [struct default_tag;] and the tags a client declares. *)
Inductive tag := default_tag | user_tag (k : nat).

Global Instance tag_eq_dec : EqDecision tag.
Proof. solve_decision. Defined.

(** A value type [T], as far as lists are concerned: the tags [G] of the
    bases [list_element<G>] that it embeds. *)
Definition value_type := list tag.

(** The links by tag.  A [list_element<G>*] can only point at a
    [list_element<G>], so the links of each tag form a store of their own;
    the [G]-link of the value at address [x] is the cell [x] of the store
    of [G]. *)
Definition tagged_store := tag → heap.

(** [std::is_convertible_v<T&, list_element<G>&>], which the [static_assert]
    of [list<T, Tag>] and every [static_cast<list_element<G>*>(&element)]
    need: [T] has the base [list_element<G>]. *)
Definition convertible (T : value_type) (G : tag) : bool := bool_decide (G ∈ T).

(** The base in which the unqualified names [prev], [next] and [unlink] are
    found through a [T] ([element.next], [pos->next], [mut_pos->unlink()]):
    the lookup is ambiguous when [T] has several [list_element] bases. *)
Definition member_base (T : value_type) : option tag :=
  match T with
  | [G] => Some G
  | _ => None
  end.

(** The member functions of [list<T, Tag>] that link and unlink elements. *)
Inductive member :=
  | call_push_back (x : loc)
  | call_push_front (x : loc)
  | call_pop_back
  | call_pop_front
  | call_insert (pos x : loc)
  | call_erase (pos : loc)
  | call_splice (pos : loc) (other : intrusive_list) (first last : loc).

(** Whether [list<T, Tag>] can instantiate the member function.
    - [push_back] names the link as [element.list_element<Tag>::prev] and
      casts to [list_element<Tag>*]; [pop_back] and [pop_front] only go
      through [node].
    - [push_front] and [insert] cast to [list_element<>*], which is
      [list_element<default_tag>*], store that pointer in fields of type
      [list_element<Tag>*], and name the fields of the element without
      qualification.
    - [erase] and [splice] reach [prev], [next] and [unlink] through
      [T*], without qualification. *)
Definition well_formed (T : value_type) (Tag : tag) (f : member) : bool :=
  convertible T Tag &&
  match f with
  | call_push_back _ | call_pop_back | call_pop_front => true
  | call_push_front _ | call_insert _ _ =>
      convertible T default_tag && bool_decide (Tag = default_tag) &&
      bool_decide (member_base T = Some Tag)
  | call_erase _ | call_splice _ _ _ _ =>
      bool_decide (member_base T = Some Tag)
  end.

(** The body of the member function, on the links of the tag of the list. *)
Definition body (this : intrusive_list) (f : member) : M unit :=
  match f with
  | call_push_back x => push_back this x
  | call_push_front x => push_front this x
  | call_pop_back => pop_back this
  | call_pop_front => pop_front this
  | call_insert pos x => insert this (Iterator (Some pos)) x ;;; ret tt
  | call_erase pos => erase this (Iterator (Some pos)) ;;; ret tt
  | call_splice pos other first last =>
      splice this (Iterator (Some pos)) other
        (Iterator (Some first)) (Iterator (Some last))
  end.

(** A call of a member function of a [list<T, Tag>]. *)
Definition call (T : value_type) (Tag : tag) (this : intrusive_list)
    (f : member) (s : tagged_store) : option tagged_store :=
  if well_formed T Tag f then
    match body this f (s Tag) with
    | Some (_, h') => Some (<[Tag := h']> s)
    | None => None
    end
  else None.

(** A value type with two links, and a value of it at address 1 that is in
    no list; a [list<T>] with sentinel 0 and a [list<T, user_tag 1>] with
    sentinel 3, both empty. *)
Definition two_links : value_type := [default_tag; user_tag 1].

Definition store_two_links : tagged_store :=
  λ G, match G with
       | default_tag => list_to_map [(0, LinkCell (Some 0) (Some 0)); (1, unset)]
       | user_tag 1 => list_to_map [(3, LinkCell (Some 3) (Some 3)); (1, unset)]
       | user_tag _ => ∅
       end.

(** * Proofs *)

(** ** Reading and writing fields *)

Section fields.
Implicit Types (h : heap) (a q : loc) (v : ptr).

Lemma nxt_Some_dom h a v : nxt h a = Some v → a ∈ dom h.
Proof.
  unfold nxt. intros H. apply elem_of_dom.
  destruct (h !! a); [eauto | done].
Qed.

Lemma prv_Some_dom h a v : prv h a = Some v → a ∈ dom h.
Proof.
  unfold prv. intros H. apply elem_of_dom.
  destruct (h !! a); [eauto | done].
Qed.

Lemma dom_w_next h a v : dom (w_next a v h) = dom h.
Proof.
  unfold w_next. destruct (h !! a) as [c|] eqn:E; [|done].
  rewrite dom_insert_L. apply elem_of_dom_2 in E. set_solver.
Qed.

Lemma dom_w_prev h a v : dom (w_prev a v h) = dom h.
Proof.
  unfold w_prev. destruct (h !! a) as [c|] eqn:E; [|done].
  rewrite dom_insert_L. apply elem_of_dom_2 in E. set_solver.
Qed.

Lemma nxt_w_next_eq h a v : a ∈ dom h → nxt (w_next a v h) a = Some v.
Proof.
  intros [c E]%elem_of_dom. unfold nxt, w_next. rewrite E.
  by rewrite lookup_insert_eq.
Qed.

Lemma nxt_w_next_ne h a v q : q ≠ a → nxt (w_next a v h) q = nxt h q.
Proof.
  intros Hne. unfold nxt, w_next. destruct (h !! a); [|done].
  by rewrite lookup_insert_ne.
Qed.

Lemma prv_w_next h a v q : prv (w_next a v h) q = prv h q.
Proof.
  unfold prv, w_next. destruct (h !! a) as [c|] eqn:E; [|done].
  destruct (decide (q = a)) as [->|Hne].
  - by rewrite lookup_insert_eq, E.
  - by rewrite lookup_insert_ne.
Qed.

Lemma prv_w_prev_eq h a v : a ∈ dom h → prv (w_prev a v h) a = Some v.
Proof.
  intros [c E]%elem_of_dom. unfold prv, w_prev. rewrite E.
  by rewrite lookup_insert_eq.
Qed.

Lemma prv_w_prev_ne h a v q : q ≠ a → prv (w_prev a v h) q = prv h q.
Proof.
  intros Hne. unfold prv, w_prev. destruct (h !! a); [|done].
  by rewrite lookup_insert_ne.
Qed.

Lemma nxt_w_prev h a v q : nxt (w_prev a v h) q = nxt h q.
Proof.
  unfold nxt, w_prev. destruct (h !! a) as [c|] eqn:E; [|done].
  destruct (decide (q = a)) as [->|Hne].
  - by rewrite lookup_insert_eq, E.
  - by rewrite lookup_insert_ne.
Qed.

(** A cell is its two fields. *)
Lemma cell_fields h a p n :
  h !! a = Some (LinkCell p n) ↔ prv h a = Some p ∧ nxt h a = Some n.
Proof.
  unfold prv, nxt. split.
  - by intros ->.
  - destruct (h !! a) as [[p' n']|]; simpl; [|naive_solver].
    intros [[= ->] [= ->]]. done.
Qed.

Lemma heap_fields_eq h h' :
  (∀ q, nxt h' q = nxt h q) → (∀ q, prv h' q = prv h q) → h' = h.
Proof.
  intros HN HP. apply map_eq. intros q.
  specialize (HN q). specialize (HP q). unfold nxt, prv in *.
  destruct (h' !! q) as [[]|], (h !! q) as [[]|]; simpl in *; congruence.
Qed.

Lemma lookup_fields_eq h h' q :
  nxt h' q = nxt h q → prv h' q = prv h q → h' !! q = h !! q.
Proof.
  unfold nxt, prv.
  destruct (h' !! q) as [[]|], (h !! q) as [[]|]; simpl in *; congruence.
Qed.
End fields.

(** ** Running programs *)

Section wp.
Context {A B : Type}.
Implicit Types (h : heap) (a : loc) (v : ptr).

Lemma wp_elim (m : M A) h Q :
  wp m h Q → ∃ r h', m h = Some (r, h') ∧ Q r h'.
Proof. unfold wp. destruct (m h) as [[r h']|]; [eauto | done]. Qed.

Lemma wp_intro (m : M A) h r h' (Q : A → heap → Prop) :
  m h = Some (r, h') → Q r h' → wp m h Q.
Proof. unfold wp. by intros ->. Qed.

Lemma wp_mono (m : M A) h (Q Q' : A → heap → Prop) :
  wp m h Q → (∀ r h', Q r h' → Q' r h') → wp m h Q'.
Proof. unfold wp. destruct (m h) as [[r h']|]; [eauto | done]. Qed.

Lemma wp_ret (x : A) h (Q : A → heap → Prop) : Q x h → wp (ret x) h Q.
Proof. done. Qed.

Lemma wp_bind (m : M A) (k : A → M B) h (Q : B → heap → Prop) :
  wp m h (λ x h', wp (k x) h' Q) → wp (bind m k) h Q.
Proof. unfold wp, bind. destruct (m h) as [[r h']|]; done. Qed.
End wp.

Section wp_fields.
Implicit Types (h : heap) (a : loc) (v : ptr).

Lemma wp_get_next h a v (Q : ptr → heap → Prop) :
  nxt h a = Some v → Q v h → wp (get_next (Some a)) h Q.
Proof.
  unfold wp, get_next, nxt. destruct (h !! a); simpl; [|done].
  by intros [= ->].
Qed.

Lemma wp_get_prev h a v (Q : ptr → heap → Prop) :
  prv h a = Some v → Q v h → wp (get_prev (Some a)) h Q.
Proof.
  unfold wp, get_prev, prv. destruct (h !! a); simpl; [|done].
  by intros [= ->].
Qed.

Lemma wp_set_next h a v (Q : unit → heap → Prop) :
  a ∈ dom h → Q tt (w_next a v h) → wp (set_next (Some a) v) h Q.
Proof.
  intros [c E]%elem_of_dom. unfold wp, set_next, w_next. by rewrite E.
Qed.

Lemma wp_set_prev h a v (Q : unit → heap → Prop) :
  a ∈ dom h → Q tt (w_prev a v h) → wp (set_prev (Some a) v) h Q.
Proof.
  intros [c E]%elem_of_dom. unfold wp, set_prev, w_prev. by rewrite E.
Qed.

Lemma wp_addr_of_deref h a (Q : ptr → heap → Prop) :
  a ∈ dom h → Q (Some a) h → wp (addr_of_deref (Some a)) h Q.
Proof.
  intros [c E]%elem_of_dom. unfold wp, addr_of_deref. by rewrite E.
Qed.
End wp_fields.

(** ** Paths and circular chains *)

Section paths.
Implicit Types (h : heap) (l c : list loc) (a b q : loc).

Lemma path_cons h a l :
  path h (a :: l) ↔ path h l ∧ (∀ b, head l = Some b → link h a b).
Proof.
  destruct l as [|b t]; simpl.
  - naive_solver.
  - split.
    + intros [Hl Ht]. split; [done|]. by intros ? [= <-].
    + intros [Ht Hl]. split; [by apply Hl | done].
Qed.

Lemma path_app h l1 l2 :
  path h (l1 ++ l2) ↔
  path h l1 ∧ path h l2 ∧
  (∀ a b, last l1 = Some a → head l2 = Some b → link h a b).
Proof.
  induction l1 as [|x l1 IH].
  - simpl. naive_solver.
  - rewrite <-app_comm_cons, !path_cons, IH.
    destruct l1 as [|y l1].
    + simpl. naive_solver.
    + rewrite last_cons_cons. simpl. naive_solver.
Qed.

(** A path survives any change of the store that keeps [next] of its
    cells but the last, and [prev] of its cells but the first. *)
Lemma path_frame h h' l :
  NoDup l → path h l →
  (∀ q, q ∈ l → last l ≠ Some q → nxt h' q = nxt h q) →
  (∀ q, q ∈ l → head l ≠ Some q → prv h' q = prv h q) →
  path h' l.
Proof.
  induction l as [|a [|b t] IH]; [done | done |].
  intros [Ha Hnd]%NoDup_cons [[Hn Hp] Ht] HN HP.
  split; [split|].
  - rewrite HN; [done | set_solver |].
    rewrite last_cons_cons. intros Hl%last_Some_elem_of. done.
  - rewrite HP; [done | set_solver |]. simpl. intros [= ->]. set_solver.
  - apply IH; [done | done | |].
    + intros q Hq Hl. apply HN; [set_solver|]. by rewrite last_cons_cons.
    + intros q Hq Hl. apply HP; [set_solver|]. simpl. intros [= ->]. done.
Qed.

Lemma closes_intro h c a b :
  last c = Some a → head c = Some b → link h a b → closes h c.
Proof. unfold closes. by intros -> ->. Qed.

Lemma closes_elim h c :
  closes h c → ∃ a b, last c = Some a ∧ head c = Some b ∧ link h a b.
Proof. unfold closes. destruct (last c), (head c); naive_solver. Qed.

Lemma cyc_nonempty h c : cyc h c → c ≠ [].
Proof. intros (_ & _ & Hc) ->. done. Qed.

(** A circular chain can be read from any of its cells. *)
Lemma cyc_rot h l1 l2 : cyc h (l1 ++ l2) → cyc h (l2 ++ l1).
Proof.
  destruct l1 as [|x1 t1]; [by rewrite app_nil_r|].
  destruct l2 as [|x2 t2]; [by rewrite app_nil_r|].
  intros (Hnd & Hp & Hc). split; [|split].
  - revert Hnd. rewrite !NoDup_app. set_solver.
  - apply path_app in Hp as (Hp1 & Hp2 & Hb).
    apply path_app. split; [done|]. split; [done|].
    intros a b Ha Hb'. apply closes_elim in Hc as (a' & b' & Hl & Hh & Hlk).
    rewrite last_app, Ha in Hl. simpl in Hh, Hb'. congruence.
  - apply path_app in Hp as (Hp1 & Hp2 & Hb).
    destruct (last (x1 :: t1)) as [a|] eqn:Ha.
    2:{ by apply last_None in Ha. }
    eapply closes_intro; [by rewrite last_app, Ha | done |].
    by apply Hb.
Qed.

Lemma cyc_rot_iff h l1 l2 : cyc h (l1 ++ l2) ↔ cyc h (l2 ++ l1).
Proof. split; apply cyc_rot. Qed.

Lemma cyc_closes h c a b :
  cyc h c → last c = Some a → head c = Some b → link h a b.
Proof.
  intros (_ & _ & Hc) Ha Hb.
  apply closes_elim in Hc as (a' & b' & Hl & Hh & Hlk). congruence.
Qed.

(** Every cell of a circular chain has a successor and a predecessor in
    the chain, and they point back at it. *)
Lemma cyc_succ h c q : cyc h c → q ∈ c → ∃ s, s ∈ c ∧ link h q s.
Proof.
  intros Hc (l1 & l2 & ->)%list_elem_of_split.
  apply cyc_rot in Hc. simpl in Hc. destruct Hc as (_ & Hp & Hc).
  destruct l2 as [|b l2].
  - simpl in *. destruct l1 as [|b l1].
    + exists q. split; [set_solver|]. done.
    + exists b. split; [set_solver|]. by destruct Hp.
  - exists b. split; [set_solver|]. by destruct Hp.
Qed.

Lemma cyc_pred h c q : cyc h c → q ∈ c → ∃ p, p ∈ c ∧ link h p q.
Proof.
  intros Hc (l1 & l2 & ->)%list_elem_of_split.
  apply cyc_rot in Hc. simpl in Hc.
  destruct (last (q :: l2 ++ l1)) as [p|] eqn:Hl.
  2:{ by apply last_None in Hl. }
  exists p. split.
  - apply last_Some_elem_of in Hl. set_solver.
  - eapply cyc_closes; done.
Qed.

Lemma cyc_dom h c q : cyc h c → q ∈ c → q ∈ dom h.
Proof.
  intros Hc Hq. destruct (cyc_succ h c q Hc Hq) as (s & _ & Hn & _).
  by eapply nxt_Some_dom.
Qed.

(** A circular chain only depends on the cells it is made of. *)
Lemma cyc_frame h h' c :
  cyc h c → (∀ q, q ∈ c → h' !! q = h !! q) → cyc h' c.
Proof.
  intros (Hnd & Hp & Hc) Hf.
  assert (HN : ∀ q, q ∈ c → nxt h' q = nxt h q).
  { intros q Hq. unfold nxt. by rewrite Hf. }
  assert (HP : ∀ q, q ∈ c → prv h' q = prv h q).
  { intros q Hq. unfold prv. by rewrite Hf. }
  split; [done|]. split.
  - eapply path_frame; eauto.
  - apply closes_elim in Hc as (a & b & Hl & Hh & Hn & Hpv).
    eapply closes_intro; [done..|]. split.
    + rewrite HN; [done|]. by apply last_Some_elem_of.
    + rewrite HP; [done|]. by apply head_Some_elem_of.
Qed.

(** The cells of a circular chain are fully linked: no null field. *)
Lemma cyc_cell h c q :
  cyc h c → q ∈ c →
  ∃ p s, p ∈ c ∧ s ∈ c ∧ h !! q = Some (LinkCell (Some p) (Some s)) ∧
         link h p q ∧ link h q s.
Proof.
  intros Hc Hq.
  destruct (cyc_succ h c q Hc Hq) as (s & Hs & Hqs).
  destruct (cyc_pred h c q Hc Hq) as (p & Hp & Hpq).
  exists p, s. split; [done|]. split; [done|]. split; [|done].
  apply cell_fields. split; [apply Hpq | apply Hqs].
Qed.

Lemma cyc_singleton h n :
  cyc h [n] ↔ h !! n = Some (LinkCell (Some n) (Some n)).
Proof.
  rewrite cell_fields. unfold cyc, closes, link. simpl. split.
  - naive_solver.
  - intros [??]. split; [apply NoDup_singleton | done].
Qed.
End paths.

(** ** The effects of the member functions on the fields *)

Ltac fld_dom :=
  repeat first [ rewrite dom_w_next | rewrite dom_w_prev ];
  first [ assumption
        | eapply nxt_Some_dom; eassumption
        | eapply prv_Some_dom; eassumption ].

Ltac fld :=
  repeat first
    [ rewrite prv_w_next
    | rewrite nxt_w_prev
    | rewrite dom_w_next
    | rewrite dom_w_prev
    | rewrite nxt_w_next_eq by fld_dom
    | rewrite prv_w_prev_eq by fld_dom
    | rewrite nxt_w_next_ne by congruence
    | rewrite prv_w_prev_ne by congruence ].

Ltac wp_read := fld; first [ eassumption | reflexivity ].

Ltac wp_step :=
  cbn [node element];
  lazymatch goal with
  | |- wp (bind _ _) _ _ => apply wp_bind
  | |- wp (ret _) _ _ => apply wp_ret
  | |- wp (get_next _) _ _ => eapply wp_get_next; [wp_read|]
  | |- wp (get_prev _) _ _ => eapply wp_get_prev; [wp_read|]
  | |- wp (set_next _ _) _ _ => apply wp_set_next; [fld_dom|]
  | |- wp (set_prev _ _) _ _ => apply wp_set_prev; [fld_dom|]
  | |- wp (addr_of_deref _) _ _ => apply wp_addr_of_deref; [fld_dom|]
  end;
  cbv beta iota.

Ltac wp_run := repeat wp_step.

(** Two cells differ when they belong to disjoint lists. *)
Lemma ne_of_disjoint (l1 l2 : list loc) (x y : loc) :
  x ∈ l1 → y ∈ l2 → (∀ q, q ∈ l1 → q ∉ l2) → x ≠ y.
Proof. intros ??? ->. naive_solver. Qed.

(** Closed decidable facts about the example stores, by evaluation. *)
Ltac by_compute := apply (bool_decide_unpack _); vm_compute; exact I.

Ltac solve_ne :=
  eapply ne_of_disjoint; [eassumption | eassumption | set_solver].

Section effects.
Implicit Types (h : heap) (c : list loc) (P S x q n : loc).

Lemma push_back_linked_in h P n x :
  link h P n → x ∈ dom h → x ≠ n → x ≠ P →
  wp (push_back (List (Some n)) x) h (λ _ h', linked_in h h' P x n).
Proof.
  intros [HPn HnP] Hx Hxn HxP. unfold push_back. wp_run.
  repeat split; intros; fld; done.
Qed.

Lemma push_front_linked_in h n S x :
  link h n S → x ∈ dom h → x ≠ n → x ≠ S →
  wp (push_front (List (Some n)) x) h (λ _ h', linked_in h h' n x S).
Proof.
  intros [HnS HSn] Hx Hxn HxS. unfold push_front. wp_run.
  repeat split; intros; fld; done.
Qed.

Lemma mutable_of_pos h q s (Q : list_iterator → heap → Prop) :
  link h q s → Q (Iterator (Some q)) h →
  wp (mutable_of (Iterator (Some q))) h Q.
Proof. intros [Hn Hp] HQ. unfold mutable_of. wp_run. done. Qed.

Lemma insert_linked_in h this P S s x :
  link h P S → link h S s → x ∈ dom h → x ≠ S → x ≠ P →
  wp (insert this (Iterator (Some S)) x) h
     (λ r h', r = Iterator (Some x) ∧ linked_in h h' P x S).
Proof.
  intros [HPS HSP] HSs Hx HxS HxP. unfold insert.
  apply wp_bind. eapply mutable_of_pos; [done|]. wp_run.
  repeat split; intros; fld; done.
Qed.

Lemma pop_back_bypassed h P x n :
  link h P x → link h x n →
  wp (pop_back (List (Some n))) h (λ _ h', bypassed h h' P n).
Proof.
  intros [HPx HxP] [Hxn Hnx]. unfold pop_back. wp_run.
  repeat split; intros; fld; done.
Qed.

Lemma pop_front_bypassed h n x S :
  link h n x → link h x S →
  wp (pop_front (List (Some n))) h (λ _ h', bypassed h h' n S).
Proof.
  intros [Hnx Hxn] [HxS HSx]. unfold pop_front. wp_run.
  repeat split; intros; fld; done.
Qed.

Lemma lookup_unset h x :
  x ∈ dom h → (w_next x None (w_prev x None h)) !! x = Some unset.
Proof.
  intros Hx. apply cell_fields. split; fld; done.
Qed.

Lemma unlink_erased h P x S :
  link h P x → link h x S → x ≠ P → x ≠ S →
  wp (unlink (Some x)) h (λ _ h', erased h h' P x S).
Proof.
  intros [HPx HxP] [HxS HSx] HP HS. unfold unlink. wp_run.
  split; [by fld|]. split; [split; fld; done|].
  split; [apply lookup_unset; fld_dom|].
  split; intros; fld; done.
Qed.

Lemma erase_erased h this P x S :
  link h P x → link h x S → x ≠ P → x ≠ S →
  wp (erase this (Iterator (Some x))) h
     (λ r h', r = Iterator (Some S) ∧ erased h h' P x S).
Proof.
  intros [HPx HxP] [HxS HSx] HP HS. unfold erase.
  apply wp_bind. eapply mutable_of_pos; [done|]. wp_run.
  unfold unlink. wp_run.
  split; [done|]. split; [by fld|]. split; [split; fld; done|].
  split; [apply lookup_unset; fld_dom|].
  split; intros; fld; done.
Qed.



Lemma clear_spec h n :
  n ∈ dom h →
  clear (List (Some n)) h = Some (tt, <[n := LinkCell (Some n) (Some n)]> h).
Proof.
  intros [c Hc]%elem_of_dom. unfold clear, bind, set_next, set_prev. simpl.
  rewrite Hc, lookup_insert_eq. simpl. by rewrite insert_insert_eq.
Qed.

Lemma list_ctor_spec h a :
  a = fresh (dom h) →
  (a ∉ dom h) ∧
  list_ctor h = Some (List (Some a), <[a := LinkCell (Some a) (Some a)]> h).
Proof.
  intros ->. split; [apply is_fresh|].
  unfold list_ctor, bind, new_list_element, list_element_ctor,
    set_next, set_prev, ret.
  rewrite lookup_insert_eq. simpl. rewrite lookup_insert_eq. simpl.
  by rewrite !insert_insert_eq.
Qed.

Lemma splice_respliced h this other A f pl L P S s :
  link h A f → link h pl L → link h P S → link h S s →
  f ≠ L → f ≠ S → pl ≠ A → pl ≠ P → A ≠ P → L ≠ S →
  wp (splice this (Iterator (Some S)) other
        (Iterator (Some f)) (Iterator (Some L))) h
     (λ _ h', respliced h h' A f pl L P S).
Proof.
  intros [HAf HfA] [HplL HLpl] [HPS HSP] HSs ??????.
  unfold splice, iter_eq. cbn [element].
  rewrite bool_decide_eq_false_2 by congruence.
  apply wp_bind. eapply mutable_of_pos; [done|]. wp_run.
  repeat split; intros; fld; done.
Qed.

(** Splicing a range to the position right after it writes every field
    back to what it was. *)
Lemma splice_in_place h this other A f pl L s :
  link h A f → link h pl L → link h L s → f ≠ L → pl ≠ A →
  splice this (Iterator (Some L)) other
    (Iterator (Some f)) (Iterator (Some L)) h = Some (tt, h).
Proof.
  intros [HAf HfA] [HplL HLpl] HLs ??.
  cut (wp (splice this (Iterator (Some L)) other
             (Iterator (Some f)) (Iterator (Some L))) h (λ _ h', h' = h)).
  { intros (r & h' & -> & ->)%wp_elim. by destruct r. }
  unfold splice, iter_eq. cbn [element].
  rewrite bool_decide_eq_false_2 by congruence.
  apply wp_bind. eapply mutable_of_pos; [done|]. wp_run.
  apply heap_fields_eq; intros q.
  - destruct (decide (q = A)) as [->|]; [by fld|].
    destruct (decide (q = pl)) as [->|]; by fld.
  - destruct (decide (q = L)) as [->|]; [by fld|].
    destruct (decide (q = f)) as [->|]; by fld.
Qed.

Lemma splice_empty_range h this other pos first :
  splice this pos other first first h = Some (tt, h).
Proof.
  unfold splice, iter_eq. by rewrite bool_decide_eq_true_2.
Qed.
End effects.

(** ** The effects on circular chains *)

Section cycles.
Implicit Types (h : heap) (c r b : list loc) (P S x q : loc).

Lemma linked_in_frame h h' P x S q :
  linked_in h h' P x S → q ≠ P → q ≠ x → q ≠ S → h' !! q = h !! q.
Proof.
  intros (_ & _ & _ & HN & HP) ???. apply lookup_fields_eq; auto.
Qed.

Lemma bypassed_frame h h' P S q :
  bypassed h h' P S → q ≠ P → q ≠ S → h' !! q = h !! q.
Proof. intros (_ & _ & HN & HP) ??. apply lookup_fields_eq; auto. Qed.

Lemma erased_frame h h' P x S q :
  erased h h' P x S → q ≠ P → q ≠ x → q ≠ S → h' !! q = h !! q.
Proof.
  intros (_ & _ & _ & HN & HP) ???. apply lookup_fields_eq; auto.
Qed.

Lemma respliced_frame h h' A f pl L P S q :
  respliced h h' A f pl L P S →
  q ∉ [A; f; pl; L; P; S] → h' !! q = h !! q.
Proof.
  intros (_ & _ & _ & _ & HN & HP) Hq.
  apply lookup_fields_eq; [apply HN | apply HP]; set_solver.
Qed.

(** Linking [x] in between the last and the first cell of a chain. *)
Lemma cyc_linked_in h h' c P x S :
  cyc h c → last c = Some P → head c = Some S → x ∉ c →
  linked_in h h' P x S → cyc h' (c ++ [x]).
Proof.
  intros (Hnd & Hp & Hc) HP HS Hx (_ & HPx & HxS & HN & HPv).
  split; [|split].
  - apply NoDup_app. split; [done|]. split; [set_solver|].
    apply NoDup_singleton.
  - apply path_app. split; [|split; [done|]].
    + eapply path_frame; [done..| |].
      * intros q Hq Hl. apply HN; [congruence | set_solver].
      * intros q Hq Hl. apply HPv; [congruence | set_solver].
    + intros a b Ha [= <-]. congruence.
  - eapply closes_intro; [apply last_snoc | | exact HxS].
    by rewrite head_app, HS.
Qed.

(** Taking the first cell [x] out of a chain by making its neighbours
    point at each other. *)
Lemma cyc_unlinked h h' c P x S :
  cyc h (x :: c) → last c = Some P → head c = Some S →
  link h' P S →
  (∀ q, q ∈ c → q ≠ P → nxt h' q = nxt h q) →
  (∀ q, q ∈ c → q ≠ S → prv h' q = prv h q) →
  cyc h' c.
Proof.
  intros (Hnd & Hp & Hc) HP HS HPS HN HPv.
  apply NoDup_cons in Hnd as [Hx Hnd].
  apply path_cons in Hp as [Hp _].
  split; [done|]. split.
  - eapply path_frame; [done..| |].
    + intros q Hq Hl. apply HN; [done | congruence].
    + intros q Hq Hl. apply HPv; [done | congruence].
  - eapply closes_intro; done.
Qed.

(** The neighbours of the first cell of a chain of two cells or more. *)
Lemma cyc_head_links h x c P S :
  cyc h (x :: c) → last c = Some P → head c = Some S →
  link h P x ∧ link h x S ∧ x ≠ P ∧ x ≠ S.
Proof.
  intros (Hnd & Hp & Hc) HP HS.
  apply NoDup_cons in Hnd as [Hx Hnd].
  apply path_cons in Hp as [_ Hp].
  apply closes_elim in Hc as (a & b & Hl & Hh & Hlk).
  rewrite last_cons, HP in Hl. simpl in Hh.
  split; [congruence|]. split; [by apply Hp|].
  apply last_Some_elem_of in HP. apply head_Some_elem_of in HS.
  set_solver.
Qed.

(** Moving the chain [r] out of one circular chain into another one. *)
Lemma cyc_respliced h h' r b c A f pl L P S :
  cyc h (r ++ b) → cyc h c → (∀ q, q ∈ c → q ∉ r ++ b) →
  head r = Some f → last r = Some pl →
  head b = Some L → last b = Some A →
  head c = Some S → last c = Some P →
  respliced h h' A f pl L P S →
  cyc h' b ∧ cyc h' (c ++ r).
Proof.
  intros (Hnd1 & Hp1 & Hc1) (Hnd2 & Hp2 & Hc2) Hdisj Hf Hpl HL HA HS HP
    (_ & HAL & HPf & HplS & HN & HPv).
  apply NoDup_app in Hnd1 as (Hndr & Hrb & Hndb).
  apply path_app in Hp1 as (Hpr & Hpb & _).
  pose proof (head_Some_elem_of _ _ Hf) as Hf'.
  pose proof (last_Some_elem_of _ _ Hpl) as Hpl'.
  pose proof (head_Some_elem_of _ _ HL) as HL'.
  pose proof (last_Some_elem_of _ _ HA) as HA'.
  pose proof (head_Some_elem_of _ _ HS) as HS'.
  pose proof (last_Some_elem_of _ _ HP) as HP'.
  assert (Hpb' : path h' b).
  { eapply path_frame; [done..| |].
    - intros q Hq Hl. apply HN; [congruence | set_solver | set_solver].
    - intros q Hq Hl. apply HPv; [congruence | set_solver | set_solver]. }
  assert (Hpr' : path h' r).
  { eapply path_frame; [done..| |].
    - intros q Hq Hl. apply HN; [set_solver | congruence | set_solver].
    - intros q Hq Hl. apply HPv; [set_solver | congruence | set_solver]. }
  assert (Hpc' : path h' c).
  { eapply path_frame; [done..| |].
    - intros q Hq Hl. apply HN; [set_solver | set_solver | congruence].
    - intros q Hq Hl. apply HPv; [set_solver | set_solver | congruence]. }
  split.
  - split; [done|]. split; [done|]. eapply closes_intro; done.
  - split; [|split].
    + apply NoDup_app. set_solver.
    + apply path_app. split; [done|]. split; [done|].
      intros a a' Ha Ha'. congruence.
    + eapply closes_intro; [| |exact HplS].
      * by rewrite last_app, Hpl.
      * by rewrite head_app, HS.
Qed.

(** Moving the chain [r] to another place of its own circular chain. *)
Lemma cyc_respliced_same h h' r b1 b2 A f pl L P S :
  cyc h (r ++ b1 ++ b2) →
  head r = Some f → last r = Some pl →
  head b1 = Some L → last b1 = Some P →
  head b2 = Some S → last b2 = Some A →
  respliced h h' A f pl L P S →
  cyc h' (b1 ++ r ++ b2).
Proof.
  intros (Hnd & Hp & Hc) Hf Hpl HL HP HS HA
    (_ & HAL & HPf & HplS & HN & HPv).
  apply NoDup_app in Hnd as (Hndr & Hrb & Hndb).
  apply NoDup_app in Hndb as (Hnd1 & H12 & Hnd2).
  apply path_app in Hp as (Hpr & Hpb & _).
  apply path_app in Hpb as (Hp1 & Hp2 & _).
  pose proof (head_Some_elem_of _ _ Hf) as Hf'.
  pose proof (last_Some_elem_of _ _ Hpl) as Hpl'.
  pose proof (head_Some_elem_of _ _ HL) as HL'.
  pose proof (last_Some_elem_of _ _ HP) as HP'.
  pose proof (head_Some_elem_of _ _ HS) as HS'.
  pose proof (last_Some_elem_of _ _ HA) as HA'.
  assert (Hp1' : path h' b1).
  { eapply path_frame; [done..| |].
    - intros q Hq Hl. apply HN; [set_solver | set_solver | congruence].
    - intros q Hq Hl. apply HPv; [congruence | set_solver | set_solver]. }
  assert (Hpr' : path h' r).
  { eapply path_frame; [done..| |].
    - intros q Hq Hl. apply HN; [set_solver | congruence | set_solver].
    - intros q Hq Hl. apply HPv; [set_solver | congruence | set_solver]. }
  assert (Hp2' : path h' b2).
  { eapply path_frame; [done..| |].
    - intros q Hq Hl. apply HN; [congruence | set_solver | set_solver].
    - intros q Hq Hl. apply HPv; [set_solver | set_solver | congruence]. }
  split; [|split].
  - rewrite !NoDup_app. set_solver.
  - apply path_app. split; [done|]. split.
    + apply path_app. split; [done|]. split; [done|].
      intros a a' Ha Ha'. congruence.
    + intros a a' Ha Ha'. rewrite head_app, Hf in Ha'. congruence.
  - eapply closes_intro; [| |exact HAL].
    + by rewrite !last_app, HA.
    + by rewrite head_app, HL.
Qed.
End cycles.

(** ** The member functions on rings *)

Section rings.
Implicit Types (h : heap) (xs ys r : list loc) (n x q : loc).
Implicit Types (this other : intrusive_list).

Lemma head_position n xs ys : head (xs ++ n :: ys) = Some (position n xs).
Proof. unfold position. by destruct xs. Qed.

Lemma last_last_of n xs ys : last (ys ++ n :: xs) = Some (last_of n xs).
Proof.
  unfold last_of. rewrite last_app_cons, last_cons. by destruct (last xs).
Qed.

Lemma last_last_of_cons n xs : last (n :: xs) = Some (last_of n xs).
Proof. apply (last_last_of n xs []). Qed.

Lemma position_elem_of n xs : position n xs ∈ n :: xs.
Proof. unfold position. destruct xs; set_solver. Qed.

Lemma last_of_elem_of n xs : last_of n xs ∈ n :: xs.
Proof.
  unfold last_of. destruct (last xs) eqn:E; simpl; [|set_solver].
  apply last_Some_elem_of in E. set_solver.
Qed.

Lemma cyc_rot_eq h l l1 l2 l' :
  l = l1 ++ l2 → l' = l2 ++ l1 → cyc h l → cyc h l'.
Proof. intros -> ->. apply cyc_rot. Qed.

(** The ring read from the position before which something is put. *)
Lemma ring_at h n xs1 xs2 :
  ring h n (xs1 ++ xs2) ↔ cyc h (xs2 ++ n :: xs1).
Proof.
  unfold ring. split.
  - apply (cyc_rot_eq h _ (n :: xs1) xs2); done.
  - apply (cyc_rot_eq h _ xs2 (n :: xs1)); done.
Qed.

Lemma ring_dom h n xs q : ring h n xs → q ∈ n :: xs → q ∈ dom h.
Proof. apply cyc_dom. Qed.

Lemma ring_frame h h' n xs :
  ring h n xs → (∀ q, q ∈ n :: xs → h' !! q = h !! q) → ring h' n xs.
Proof. apply cyc_frame. Qed.

Lemma ring_empty h n :
  ring h n [] ↔ h !! n = Some (LinkCell (Some n) (Some n)).
Proof. apply cyc_singleton. Qed.

Lemma ring_insert h this n xs1 xs2 x :
  ring h n (xs1 ++ xs2) → x ∈ dom h → x ∉ n :: xs1 ++ xs2 →
  wp (insert this (Iterator (Some (position n xs2))) x) h
     (λ it h', it = Iterator (Some x) ∧ ring h' n (xs1 ++ x :: xs2) ∧
               linked_in h h' (last_of n xs1) x (position n xs2)).
Proof.
  intros Hr%ring_at Hx Hnin.
  pose proof (head_position n xs2 xs1) as HS.
  pose proof (last_last_of n xs1 xs2) as HP.
  pose proof (cyc_closes _ _ _ _ Hr HP HS) as HPS.
  destruct (cyc_succ h _ (position n xs2) Hr) as (s & _ & HSs).
  { by eapply head_Some_elem_of. }
  assert (Hc : x ∉ xs2 ++ n :: xs1) by set_solver.
  pose proof (head_Some_elem_of _ _ HS). pose proof (last_Some_elem_of _ _ HP).
  eapply wp_mono.
  { eapply (insert_linked_in h this); [done..| |]; set_solver. }
  intros it h' [Hit Hl]. split; [done|]. split; [|done].
  pose proof (cyc_linked_in _ _ _ _ _ _ Hr HP HS Hc Hl) as Hr'.
  eapply (cyc_rot_eq h' _ xs2 (n :: xs1 ++ [x])); [| |exact Hr'].
  - by rewrite <-app_assoc.
  - simpl. by rewrite <-app_assoc.
Qed.

Lemma ring_push_back h n xs x :
  ring h n xs → x ∈ dom h → x ∉ n :: xs →
  wp (push_back (List (Some n)) x) h
     (λ _ h', ring h' n (xs ++ [x]) ∧ linked_in h h' (last_of n xs) x n).
Proof.
  intros Hr Hx Hnin.
  pose proof (last_last_of_cons n xs) as HP.
  assert (HS : head (n :: xs) = Some n) by done.
  pose proof (cyc_closes _ _ _ _ Hr HP HS) as HPS.
  pose proof (last_Some_elem_of _ _ HP).
  eapply wp_mono.
  { eapply (push_back_linked_in h); [done..| |]; set_solver. }
  intros [] h' Hl. split; [|done].
  apply (cyc_linked_in _ _ _ _ _ _ Hr HP HS Hnin Hl).
Qed.

Lemma ring_push_front h n xs x :
  ring h n xs → x ∈ dom h → x ∉ n :: xs →
  wp (push_front (List (Some n)) x) h
     (λ _ h', ring h' n (x :: xs) ∧ linked_in h h' n x (position n xs)).
Proof.
  intros Hr Hx Hnin.
  apply (ring_at h n [] xs) in Hr.
  pose proof (head_position n xs []) as HS.
  assert (HP : last (xs ++ [n]) = Some n) by apply last_snoc.
  pose proof (cyc_closes _ _ _ _ Hr HP HS) as HPS.
  pose proof (head_Some_elem_of _ _ HS).
  assert (Hc : x ∉ xs ++ [n]) by set_solver.
  eapply wp_mono.
  { eapply (push_front_linked_in h); [done..| |]; set_solver. }
  intros [] h' Hl. split; [|done].
  pose proof (cyc_linked_in _ _ _ _ _ _ Hr HP HS Hc Hl) as Hr'.
  eapply (cyc_rot_eq h' _ xs [n; x]); [| |exact Hr'].
  - by rewrite <-app_assoc.
  - done.
Qed.

Lemma ring_erase h this n xs1 x xs2 :
  ring h n (xs1 ++ x :: xs2) →
  wp (erase this (Iterator (Some x))) h
     (λ it h', it = Iterator (Some (position n xs2)) ∧
               ring h' n (xs1 ++ xs2) ∧
               erased h h' (last_of n xs1) x (position n xs2)).
Proof.
  intros Hr%ring_at. simpl in Hr.
  pose proof (head_position n xs2 xs1) as HS.
  pose proof (last_last_of n xs1 xs2) as HP.
  destruct (cyc_head_links _ _ _ _ _ Hr HP HS) as (HPx & HxS & ? & ?).
  eapply wp_mono; [by eapply (erase_erased h this)|].
  intros it h' [Hit He]. split; [done|]. split; [|done].
  apply ring_at. destruct He as (_ & HPS & _ & HN & HPv).
  assert (x ∉ xs2 ++ n :: xs1) by (by destruct Hr as [[??]%NoDup_cons _]).
  eapply cyc_unlinked; [done..| |].
  - intros q Hq ?. apply HN; [done | set_solver].
  - intros q Hq ?. apply HPv; [done | set_solver].
Qed.

Lemma ring_unlink h n xs1 x xs2 :
  ring h n (xs1 ++ x :: xs2) →
  wp (unlink (Some x)) h
     (λ _ h', ring h' n (xs1 ++ xs2) ∧
              erased h h' (last_of n xs1) x (position n xs2)).
Proof.
  intros Hr%ring_at. simpl in Hr.
  pose proof (head_position n xs2 xs1) as HS.
  pose proof (last_last_of n xs1 xs2) as HP.
  destruct (cyc_head_links _ _ _ _ _ Hr HP HS) as (HPx & HxS & ? & ?).
  eapply wp_mono; [by eapply (unlink_erased h)|].
  intros [] h' He. split; [|done].
  apply ring_at. destruct He as (_ & HPS & _ & HN & HPv).
  assert (x ∉ xs2 ++ n :: xs1) by (by destruct Hr as [[??]%NoDup_cons _]).
  eapply cyc_unlinked; [done..| |].
  - intros q Hq ?. apply HN; [done | set_solver].
  - intros q Hq ?. apply HPv; [done | set_solver].
Qed.

Lemma ring_pop_back h n xs x :
  ring h n (xs ++ [x]) →
  wp (pop_back (List (Some n))) h
     (λ _ h', ring h' n xs ∧ bypassed h h' (last_of n xs) n).
Proof.
  intros Hr. apply (cyc_rot_eq h _ (n :: xs) [x] (x :: n :: xs)) in Hr;
    [|done..].
  pose proof (last_last_of_cons n xs) as HP.
  assert (HS : head (n :: xs) = Some n) by done.
  destruct (cyc_head_links _ _ _ _ _ Hr HP HS) as (HPx & HxS & ? & ?).
  eapply wp_mono; [by eapply (pop_back_bypassed h _ x)|].
  intros [] h' Hb. split; [|done].
  destruct Hb as (_ & HPS & HN & HPv).
  eapply cyc_unlinked; [done..| |]; auto.
Qed.

Lemma ring_pop_front h n xs x :
  ring h n (x :: xs) →
  wp (pop_front (List (Some n))) h
     (λ _ h', ring h' n xs ∧ bypassed h h' n (position n xs)).
Proof.
  intros Hr. apply (ring_at h n [] (x :: xs)) in Hr. simpl in Hr.
  pose proof (head_position n xs []) as HS.
  assert (HP : last (xs ++ [n]) = Some n) by apply last_snoc.
  destruct (cyc_head_links _ _ _ _ _ Hr HP HS) as (HPx & HxS & ? & ?).
  eapply wp_mono; [by eapply (pop_front_bypassed h n x)|].
  intros [] h' Hb. split; [|done].
  destruct Hb as (_ & HPS & HN & HPv).
  apply (ring_at h' n [] xs).
  eapply cyc_unlinked; [done..| |]; auto.
Qed.

Lemma ring_clear h n xs :
  ring h n xs →
  ∃ h', clear (List (Some n)) h = Some (tt, h') ∧ ring h' n [] ∧
        h' = <[n := LinkCell (Some n) (Some n)]> h.
Proof.
  intros Hr. eexists. split; [|split; [|done]].
  - apply clear_spec. eapply ring_dom; [done | set_solver].
  - apply ring_empty. by rewrite lookup_insert_eq.
Qed.

(** [splice] from another list. *)
Lemma ring_splice_other h this other nL xs1 xs2 nM ys1 r ys2 f pl :
  ring h nL (xs1 ++ xs2) → ring h nM (ys1 ++ r ++ ys2) →
  (∀ q, q ∈ nL :: xs1 ++ xs2 → q ∉ nM :: ys1 ++ r ++ ys2) →
  head r = Some f → last r = Some pl →
  wp (splice this (Iterator (Some (position nL xs2))) other
        (Iterator (Some f)) (Iterator (Some (position nM ys2)))) h
     (λ _ h', ring h' nL (xs1 ++ r ++ xs2) ∧ ring h' nM (ys1 ++ ys2) ∧
              respliced h h' (last_of nM ys1) f pl (position nM ys2)
                (last_of nL xs1) (position nL xs2)).
Proof.
  intros HL%ring_at HM%ring_at Hdisj Hf Hpl.
  rewrite <-app_assoc in HM.
  pose proof (head_position nL xs2 xs1) as HS.
  pose proof (last_last_of nL xs1 xs2) as HP.
  pose proof (head_position nM ys2 ys1) as HLa.
  pose proof (last_last_of nM ys1 ys2) as HA.
  assert (Hdisj' : ∀ q, q ∈ xs2 ++ nL :: xs1 → q ∉ r ++ ys2 ++ nM :: ys1).
  { intros q Hq. set_solver. }
  remember (xs2 ++ nL :: xs1) as c eqn:Ec.
  remember (ys2 ++ nM :: ys1) as b eqn:Eb.
  pose proof (cyc_closes _ _ _ _ HL HP HS) as HPS.
  destruct (cyc_succ h _ (position nL xs2) HL) as (s & _ & HSs).
  { by eapply head_Some_elem_of. }
  assert (HAf : link h (last_of nM ys1) f).
  { eapply cyc_closes; [exact HM | |].
    - by rewrite last_app, HA.
    - by rewrite head_app, Hf. }
  assert (HplL : link h pl (position nM ys2)).
  { destruct HM as (_ & (_ & _ & Hb)%path_app & _). by apply Hb. }
  pose proof (head_Some_elem_of _ _ Hf). pose proof (last_Some_elem_of _ _ Hpl).
  pose proof (head_Some_elem_of _ _ HS). pose proof (last_Some_elem_of _ _ HP).
  pose proof (head_Some_elem_of _ _ HLa).
  pose proof (last_Some_elem_of _ _ HA).
  assert (Hrb : ∀ q, q ∈ r → q ∉ b).
  { by destruct HM as ((_ & ? & _)%NoDup_app & _). }
  eapply wp_mono.
  { eapply (splice_respliced h this other _ _ _ _ _ _ s);
      [done | done | done | done |..]; clear Ec Eb Hdisj; solve_ne. }
  intros [] h' Hre.
  destruct (cyc_respliced _ _ _ _ _ _ _ _ _ _ _ HM HL Hdisj'
              Hf Hpl HLa HA HS HP Hre) as [Hb Hc].
  split; [|split; [|done]].
  - eapply (cyc_rot_eq h' _ xs2 (nL :: xs1 ++ r)); [| |exact Hc].
    + subst c. by rewrite <-!app_assoc.
    + simpl. by rewrite <-!app_assoc.
  - subst b. by apply ring_at.
Qed.

(** [splice] within one list, to a position after the range. *)
Lemma ring_splice_after h this other n a1 r a2 a3 f pl L P :
  ring h n (a1 ++ r ++ a2 ++ a3) →
  head r = Some f → last r = Some pl →
  head a2 = Some L → last a2 = Some P →
  wp (splice this (Iterator (Some (position n a3))) other
        (Iterator (Some f)) (Iterator (Some L))) h
     (λ _ h', ring h' n (a1 ++ a2 ++ r ++ a3) ∧
              respliced h h' (last_of n a1) f pl L P (position n a3)).
Proof.
  intros Hr%ring_at Hf Hpl HL HP.
  rewrite <-!app_assoc in Hr.
  pose proof (head_position n a3 a1) as HS.
  pose proof (last_last_of n a1 a3) as HA.
  remember (a3 ++ n :: a1) as b2 eqn:Eb2.
  destruct (cyc_succ h _ (position n a3) Hr) as (s & _ & HSs).
  { apply head_Some_elem_of in HS. set_solver. }
  assert (HAf : link h (last_of n a1) f).
  { eapply cyc_closes; [exact Hr | |].
    - by rewrite !last_app, HA.
    - by rewrite head_app, Hf. }
  pose proof Hr as (Hnd & (_ & (_ & _ & H12)%path_app & Hr1)%path_app & _).
  assert (HplL : link h pl L).
  { apply Hr1; [done|]. by rewrite head_app, HL. }
  assert (HPS : link h P (position n a3)) by by apply H12.
  apply NoDup_app in Hnd as (_ & Hrb & (_ & H12' & _)%NoDup_app).
  pose proof (head_Some_elem_of _ _ Hf). pose proof (last_Some_elem_of _ _ Hpl).
  pose proof (head_Some_elem_of _ _ HS). pose proof (last_Some_elem_of _ _ HP).
  pose proof (head_Some_elem_of _ _ HL).
  pose proof (last_Some_elem_of _ _ HA).
  eapply wp_mono.
  { eapply (splice_respliced h this other _ _ _ _ _ _ s);
      [done | done | done | done |..]; clear Eb2; solve_ne. }
  intros [] h' Hre. split; [|done].
  pose proof (cyc_respliced_same _ _ _ _ _ _ _ _ _ _ _ Hr
                Hf Hpl HL HP HS HA Hre) as Hc.
  eapply (cyc_rot_eq h' _ (a2 ++ r ++ a3) (n :: a1)); [| |exact Hc].
  - subst b2. by rewrite <-?app_assoc.
  - simpl. by rewrite <-?app_assoc.
Qed.

(** [splice] within one list, to a position before the range. *)
Lemma ring_splice_before h this other n a1 a2 r a3 f pl S A :
  ring h n (a1 ++ a2 ++ r ++ a3) →
  head r = Some f → last r = Some pl →
  head a2 = Some S → last a2 = Some A →
  wp (splice this (Iterator (Some S)) other
        (Iterator (Some f)) (Iterator (Some (position n a3)))) h
     (λ _ h', ring h' n (a1 ++ r ++ a2 ++ a3) ∧
              respliced h h' A f pl (position n a3) (last_of n a1) S).
Proof.
  intros Hr Hf Hpl HS HA.
  apply (cyc_rot_eq h _ (n :: a1 ++ a2) (r ++ a3)
           (r ++ (a3 ++ n :: a1) ++ a2)) in Hr.
  2:{ simpl. by rewrite <-!app_assoc. }
  2:{ by rewrite <-!app_assoc. }
  pose proof (head_position n a3 a1) as HL.
  pose proof (last_last_of n a1 a3) as HP.
  remember (a3 ++ n :: a1) as b1 eqn:Eb1.
  destruct (cyc_succ h _ S Hr) as (s & _ & HSs).
  { apply head_Some_elem_of in HS. set_solver. }
  assert (HAf : link h A f).
  { eapply cyc_closes; [exact Hr | |].
    - by rewrite !last_app, HA.
    - by rewrite head_app, Hf. }
  pose proof Hr as (Hnd & (_ & (_ & _ & H12)%path_app & Hr1)%path_app & _).
  assert (HplL : link h pl (position n a3)).
  { apply Hr1; [done|]. by rewrite head_app, HL. }
  assert (HPS : link h (last_of n a1) S) by by apply H12.
  apply NoDup_app in Hnd as (_ & Hrb & (_ & H12' & _)%NoDup_app).
  pose proof (head_Some_elem_of _ _ Hf). pose proof (last_Some_elem_of _ _ Hpl).
  pose proof (head_Some_elem_of _ _ HS). pose proof (last_Some_elem_of _ _ HP).
  pose proof (head_Some_elem_of _ _ HL).
  pose proof (last_Some_elem_of _ _ HA).
  eapply wp_mono.
  { eapply (splice_respliced h this other _ _ _ _ _ _ s);
      [done | done | done | done |..]; clear Eb1; solve_ne. }
  intros [] h' Hre. split; [|done].
  pose proof (cyc_respliced_same _ _ _ _ _ _ _ _ _ _ _ Hr
                Hf Hpl HL HP HS HA Hre) as Hc.
  eapply (cyc_rot_eq h' _ a3 (n :: a1 ++ r ++ a2)); [| |exact Hc].
  - subst b1. by rewrite <-?app_assoc.
  - simpl. by rewrite <-?app_assoc.
Qed.

(** [splice] within one list, to the position right after the range:
    the store does not change. *)
Lemma ring_splice_in_place h this other n a1 r a3 f :
  ring h n (a1 ++ r ++ a3) → head r = Some f →
  splice this (Iterator (Some (position n a3))) other
    (Iterator (Some f)) (Iterator (Some (position n a3))) h = Some (tt, h).
Proof.
  intros Hr%ring_at Hf. rewrite <-app_assoc in Hr.
  pose proof (head_position n a3 a1) as HL.
  pose proof (last_last_of n a1 a3) as HA.
  remember (a3 ++ n :: a1) as b eqn:Eb.
  destruct (last r) as [pl|] eqn:Hpl.
  2:{ apply last_None in Hpl. by subst r. }
  destruct (cyc_succ h _ (position n a3) Hr) as (s & _ & HSs).
  { apply head_Some_elem_of in HL. set_solver. }
  assert (HAf : link h (last_of n a1) f).
  { eapply cyc_closes; [exact Hr | |].
    - by rewrite last_app, HA.
    - by rewrite head_app, Hf. }
  assert (HplL : link h pl (position n a3)).
  { destruct Hr as (_ & (_ & _ & Hb)%path_app & _). by apply Hb. }
  destruct Hr as ((_ & Hrb & _)%NoDup_app & _).
  pose proof (head_Some_elem_of _ _ Hf). pose proof (last_Some_elem_of _ _ Hpl).
  pose proof (head_Some_elem_of _ _ HL). pose proof (last_Some_elem_of _ _ HA).
  eapply splice_in_place; [done..| |]; clear Eb; solve_ne.
Qed.
End rings.

(** ** Traversals of a ring *)

Section traversals.
Implicit Types (h : heap) (l xs : list loc) (n a b : loc).

Lemma NoDup_dom_length h l :
  NoDup l → (∀ q, q ∈ l → q ∈ dom h) → length l ≤ size h.
Proof.
  intros Hnd Hsub.
  rewrite <-size_dom, <-(size_list_to_set (C := gset loc) l Hnd).
  apply subseteq_size. set_solver.
Qed.

Lemma ring_length h n xs : ring h n xs → length xs < size h.
Proof.
  intros Hr. pose proof (NoDup_dom_length h (n :: xs)) as Hlen.
  simpl in Hlen. apply Hlen.
  - by destruct Hr.
  - intros q Hq. by eapply ring_dom.
Qed.

Local Arguments get_next : simpl never.
Local Arguments get_prev : simpl never.

Lemma get_next_nxt h a v : nxt h a = Some v → get_next (Some a) h = Some (v, h).
Proof.
  unfold nxt, get_next. destruct (h !! a); simpl; [|done]. by intros [= ->].
Qed.

Lemma get_prev_prv h a v : prv h a = Some v → get_prev (Some a) h = Some (v, h).
Proof.
  unfold prv, get_prev. destruct (h !! a); simpl; [|done]. by intros [= ->].
Qed.

Lemma walk_forward_stop h fuel p :
  walk_forward fuel (Iterator p) (Iterator p) h = Some ([], h).
Proof.
  destruct fuel; simpl; unfold iter_eq; by rewrite bool_decide_eq_true_2.
Qed.

Lemma walk_forward_step h fuel n a b :
  a ≠ n → nxt h a = Some (Some b) →
  walk_forward (S fuel) (Iterator (Some n)) (Iterator (Some a)) h
  = match walk_forward fuel (Iterator (Some n)) (Iterator (Some b)) h with
    | Some (r, h') => Some (a :: r, h')
    | None => None
    end.
Proof.
  intros Hne Hn. simpl. unfold iter_eq. simpl.
  rewrite bool_decide_eq_false_2 by congruence.
  unfold iter_incr, bind. simpl. by rewrite (get_next_nxt _ _ _ Hn).
Qed.

Lemma walk_backward_stop h fuel p :
  walk_backward fuel (Iterator p) (Iterator p) h = Some ([], h).
Proof.
  destruct fuel; simpl; unfold iter_eq; by rewrite bool_decide_eq_true_2.
Qed.

Lemma walk_backward_step h fuel n a b :
  b ≠ n → prv h b = Some (Some a) →
  walk_backward (S fuel) (Iterator (Some n)) (Iterator (Some b)) h
  = match walk_backward fuel (Iterator (Some n)) (Iterator (Some a)) h with
    | Some (r, h') => Some (a :: r, h')
    | None => None
    end.
Proof.
  intros Hne Hp. simpl. unfold iter_eq. simpl.
  rewrite bool_decide_eq_false_2 by congruence.
  unfold iter_decr, bind. simpl. by rewrite (get_prev_prv _ _ _ Hp).
Qed.

Lemma walk_forward_path h n l a fuel :
  path h (a :: l ++ [n]) → n ∉ a :: l → length l < fuel →
  walk_forward fuel (Iterator (Some n)) (Iterator (Some a)) h
  = Some (a :: l, h).
Proof.
  revert a fuel. induction l as [|b l IH]; intros a fuel Hp Hn Hlen;
    (destruct fuel as [|fuel]; [simpl in Hlen; lia|]);
    destruct Hp as [[Hab _] Hp].
  - rewrite (walk_forward_step _ _ _ _ n); [|set_solver|done].
    by rewrite walk_forward_stop.
  - rewrite (walk_forward_step _ _ _ _ b); [|set_solver|done].
    rewrite IH; [done | done | set_solver | simpl in Hlen; lia].
Qed.

Lemma position_snoc b l a : position b (l ++ [a]) = position a l.
Proof. unfold position. by destruct l. Qed.

Lemma walk_backward_path h l b fuel :
  path h (l ++ [b]) → NoDup (l ++ [b]) → length l ≤ fuel →
  walk_backward fuel (Iterator (Some (position b l))) (Iterator (Some b)) h
  = Some (reverse l, h).
Proof.
  revert b fuel. induction l as [|a l IH] using rev_ind;
    intros b fuel Hp Hnd Hlen.
  - apply walk_backward_stop.
  - rewrite length_app in Hlen. simpl in Hlen.
    destruct fuel as [|fuel]; [lia|].
    apply path_app in Hp as (Hp & _ & Hl).
    specialize (Hl a b (last_snoc _ _) eq_refl) as [_ Hba].
    apply NoDup_app in Hnd as (Hnd & Hb & _).
    rewrite position_snoc.
    rewrite (walk_backward_step _ _ _ a); [| |done].
    2:{ intros E. apply (Hb b); [|set_solver].
        rewrite E at 1. pose proof (position_elem_of a l). set_solver. }
    rewrite IH; [|done|done|lia]. by rewrite reverse_snoc.
Qed.

(** The forward traversal of a ring visits its elements in order, and the
    backward traversal visits them in the reversed order. *)
Lemma ring_traverse h n xs :
  ring h n xs →
  traverse_forward (List (Some n)) h = Some (xs, h) ∧
  traverse_backward (List (Some n)) h = Some (reverse xs, h).
Proof.
  intros Hr. pose proof (ring_length h n xs Hr) as Hlen.
  pose proof (proj1 (ring_at h n [] xs) Hr) as Hc. simpl in Hc.
  pose proof (cyc_closes _ _ _ _ Hc (last_snoc _ _) (head_position n xs []))
    as [Hn _].
  destruct Hr as (Hnd & Hp & _). destruct Hc as (Hnd' & Hp' & _).
  assert (Hb : begin_ (List (Some n)) h
               = Some (Iterator (Some (position n xs)), h)).
  { unfold begin_, bind. simpl. by rewrite (get_next_nxt _ _ _ Hn). }
  unfold traverse_forward, traverse_backward, bind.
  rewrite Hb. simpl. split.
  - destruct xs as [|a l].
    + apply walk_forward_stop.
    + unfold position. simpl. apply walk_forward_path.
      * exact Hp'.
      * apply NoDup_cons in Hnd as [? _]. done.
      * simpl in Hlen. lia.
  - apply walk_backward_path; [done | done | lia].
Qed.

Lemma ring_size_of h n xs :
  ring h n xs → size_of (List (Some n)) h = Some (length xs, h).
Proof.
  intros [Hf _]%ring_traverse. unfold size_of, bind. by rewrite Hf.
Qed.

(** The list of a ring is determined by the store. *)
Lemma ring_unique h n xs ys : ring h n xs → ring h n ys → xs = ys.
Proof.
  intros [H1 _]%ring_traverse [H2 _]%ring_traverse. congruence.
Qed.

Lemma ring_empty_iff h n xs :
  ring h n xs → empty (List (Some n)) h = Some (bool_decide (xs = []), h).
Proof.
  intros Hr. pose proof (proj1 (ring_at h n [] xs) Hr) as Hc. simpl in Hc.
  pose proof (cyc_closes _ _ _ _ Hc (last_snoc _ _) (head_position n xs []))
    as [Hn _].
  unfold empty, bind. simpl. rewrite (get_next_nxt _ _ _ Hn).
  unfold ret. do 2 f_equal. destruct xs as [|a l].
  - by rewrite !bool_decide_eq_true_2.
  - unfold position. simpl. rewrite !bool_decide_eq_false_2; [done..|].
    intros [= ->]. destruct Hr as [[? _]%NoDup_cons _]. set_solver.
Qed.

Lemma ring_front h n xs :
  ring h n xs → front (List (Some n)) h = Some (Some (position n xs), h).
Proof.
  intros Hr. pose proof (proj1 (ring_at h n [] xs) Hr) as Hc. simpl in Hc.
  pose proof (cyc_closes _ _ _ _ Hc (last_snoc _ _) (head_position n xs []))
    as [Hn _].
  assert (Hd : position n xs ∈ dom h).
  { eapply ring_dom; [done | apply position_elem_of]. }
  apply elem_of_dom in Hd as [c' Hc'].
  unfold front, bind. simpl. rewrite (get_next_nxt _ _ _ Hn).
  unfold addr_of_deref. by rewrite Hc'.
Qed.

Lemma ring_back h n xs :
  ring h n xs → back (List (Some n)) h = Some (Some (last_of n xs), h).
Proof.
  intros Hr.
  pose proof (cyc_closes _ _ _ _ Hr (last_last_of_cons n xs) eq_refl)
    as [_ Hp].
  assert (Hd : last_of n xs ∈ dom h).
  { eapply ring_dom; [done | apply last_of_elem_of]. }
  apply elem_of_dom in Hd as [c' Hc'].
  unfold back, bind. simpl. rewrite (get_prev_prv _ _ _ Hp).
  unfold addr_of_deref. by rewrite Hc'.
Qed.
End traversals.

(** * The properties of the specification *)

(** ** [erase] *)

(** C6.  For a list with sentinel [n] that holds [xs1 ++ x :: xs2], so that
    the position of [x] is not [end()], [erase] at [x] returns, the list
    then holds [xs1 ++ xs2] (exactly [x] is gone), the former neighbours of
    [x] point at each other, the returned iterator refers to the element
    that followed [x] (to the sentinel when [x] was the last one), the link
    of [x] is unset (both pointers null), and no other cell of the store
    has changed. *)
Theorem erase_detaches_and_resets
    (h : heap) (n : loc) (xs1 : list loc) (x : loc) (xs2 : list loc) :
  ring h n (xs1 ++ x :: xs2) →
  ∃ h', erase (List (Some n)) (Iterator (Some x)) h
        = Some (Iterator (Some (position n xs2)), h') ∧
        ring h' n (xs1 ++ xs2) ∧
        link h' (last_of n xs1) (position n xs2) ∧
        h' !! x = Some unset ∧
        ∀ q, q ∉ [last_of n xs1; x; position n xs2] → h' !! q = h !! q.
Proof.
  intros Hr.
  destruct (wp_elim _ _ _ (ring_erase h (List (Some n)) n xs1 x xs2 Hr))
    as (it & h' & Hrun & -> & Hr' & He).
  exists h'. split; [done|]. split; [done|].
  pose proof He as (_ & Hl & Hx & _). split; [done|]. split; [done|].
  intros q Hq. eapply erased_frame; [exact He|..]; set_solver.
Qed.

Lemma erase_detaches_and_resets_witness :
  ring store_123 0 ([1] ++ 2 :: [3]) ∧
  ∃ h', erase (List (Some 0)) (Iterator (Some 2)) store_123
        = Some (Iterator (Some (position 0 [3])), h') ∧
        ring h' 0 ([1] ++ [3]) ∧
        link h' (last_of 0 [1]) (position 0 [3]) ∧
        h' !! 2 = Some unset ∧
        ∀ q, q ∉ [last_of 0 [1]; 2; position 0 [3]] →
             h' !! q = store_123 !! q.
Proof.
  split; [by_compute|].
  apply (erase_detaches_and_resets store_123 0 [1] 2 [3]). by_compute.
Defined.

(** ** [insert] *)


Lemma linked_in_unique (h h1 h2 : heap) (P x S : loc) :
  linked_in h h1 P x S → linked_in h h2 P x S → h1 = h2.
Proof.
  intros (_ & [HPx1 HxP1] & [HxS1 HSx1] & HN1 & HP1)
         (_ & [HPx2 HxP2] & [HxS2 HSx2] & HN2 & HP2).
  apply heap_fields_eq; intros q.
  - destruct (decide (q = P)) as [->|]; [congruence|].
    destruct (decide (q = x)) as [->|]; [congruence|].
    rewrite HN1, HN2; done.
  - destruct (decide (q = S)) as [->|]; [congruence|].
    destruct (decide (q = x)) as [->|]; [congruence|].
    rewrite HP1, HP2; done.
Qed.

(** C7.  For a list with sentinel [n] that holds [xs1 ++ xs2], the position
    [pos] of the head of [xs2] (the sentinel, that is [end()], when [xs2]
    is empty) and a link [x] that exists and is not linked in the list,
    [insert] at [pos] returns an iterator to [x] and the list then holds
    [xs1 ++ x :: xs2]; and [insert] at [end()] leaves the very store that
    [push_back] leaves. *)
Theorem insert_links_before_position
    (h : heap) (n : loc) (xs1 xs2 : list loc) (x : loc) :
  ring h n (xs1 ++ xs2) → x ∈ dom h → x ∉ n :: xs1 ++ xs2 →
  (∃ h', insert (List (Some n)) (Iterator (Some (position n xs2))) x h
         = Some (Iterator (Some x), h') ∧
         ring h' n (xs1 ++ x :: xs2)) ∧
  (∃ h', insert (List (Some n)) (Iterator (Some n)) x h
         = Some (Iterator (Some x), h') ∧
         push_back (List (Some n)) x h = Some (tt, h') ∧
         ring h' n ((xs1 ++ xs2) ++ [x])).
Proof.
  intros Hr Hx Hnin. split.
  - destruct (wp_elim _ _ _
                (ring_insert h (List (Some n)) n xs1 xs2 x Hr Hx Hnin))
      as (it & h' & Hrun & -> & Hr' & _).
    by exists h'.
  - pose proof Hr as Hr0. rewrite <-(app_nil_r (xs1 ++ xs2)) in Hr.
    assert (Hnin' : x ∉ n :: (xs1 ++ xs2) ++ []) by by rewrite app_nil_r.
    destruct (wp_elim _ _ _
                (ring_insert h (List (Some n)) n (xs1 ++ xs2) [] x
                   Hr Hx Hnin'))
      as (it & h1 & Hrun1 & -> & Hr1 & Hl1).
    destruct (wp_elim _ _ _ (ring_push_back h n (xs1 ++ xs2) x Hr0 Hx Hnin))
      as ([] & h2 & Hrun2 & Hr2 & Hl2).
    unfold position in Hl1. simpl in Hl1.
    rewrite (linked_in_unique _ _ _ _ _ _ Hl2 Hl1) in Hrun2, Hr2.
    by exists h1.
Qed.

Lemma insert_links_before_position_witness :
  ring store_123 0 ([1] ++ [2; 3]) ∧ 4 ∈ dom store_123 ∧
  (4 ∉ 0 :: [1] ++ [2; 3]) ∧
  (∃ h', insert (List (Some 0)) (Iterator (Some (position 0 [2; 3]))) 4
           store_123 = Some (Iterator (Some 4), h') ∧
         ring h' 0 ([1] ++ 4 :: [2; 3])) ∧
  (∃ h', insert (List (Some 0)) (Iterator (Some 0)) 4 store_123
         = Some (Iterator (Some 4), h') ∧
         push_back (List (Some 0)) 4 store_123 = Some (tt, h') ∧
         ring h' 0 (([1] ++ [2; 3]) ++ [4])).
Proof.
  split; [by_compute|]. split; [by_compute|]. split; [by_compute|].
  apply (insert_links_before_position store_123 0 [1] [2; 3] 4); by_compute.
Defined.

(** ** [clear] *)

(** C9.  For a list with sentinel [n] that holds [xs], [clear] returns, the
    list is then empty ([empty()] is true and [begin()] equals [end()]),
    every cell but the sentinel is what it was, and the links of the former
    elements in particular keep their old, non-null pointers: they are not
    reset. *)
Theorem clear_resets_only_the_sentinel
    (h : heap) (n : loc) (xs : list loc) :
  ring h n xs →
  ∃ h', clear (List (Some n)) h = Some (tt, h') ∧
        empty (List (Some n)) h' = Some (true, h') ∧
        begin_ (List (Some n)) h' = end_ (List (Some n)) h' ∧
        ring h' n [] ∧
        (∀ q, q ≠ n → h' !! q = h !! q) ∧
        (∀ x, x ∈ xs →
           h' !! x = h !! x ∧
           ∃ p s, h' !! x = Some (LinkCell (Some p) (Some s))).
Proof.
  intros Hr. destruct (ring_clear h n xs Hr) as (h' & Hrun & Hr' & ->).
  eexists. split; [done|].
  pose proof (ring_empty_iff _ _ _ Hr') as He.
  rewrite bool_decide_eq_true_2 in He by done. split; [done|].
  split.
  { unfold begin_, end_, bind, get_next, ret. simpl.
    by rewrite lookup_insert_eq. }
  split; [done|]. split.
  { intros q Hq. by rewrite lookup_insert_ne. }
  intros x Hx.
  assert (x ≠ n).
  { intros ->. destruct Hr as [[? _]%NoDup_cons _]. done. }
  rewrite lookup_insert_ne by done. split; [done|].
  destruct (cyc_cell h _ x Hr) as (p & s & _ & _ & Hc & _); [set_solver|].
  eauto.
Qed.

Lemma clear_resets_only_the_sentinel_witness :
  ring store_123 0 [1; 2; 3] ∧
  ∃ h', clear (List (Some 0)) store_123 = Some (tt, h') ∧
        empty (List (Some 0)) h' = Some (true, h') ∧
        begin_ (List (Some 0)) h' = end_ (List (Some 0)) h' ∧
        ring h' 0 [] ∧
        (∀ q, q ≠ 0 → h' !! q = store_123 !! q) ∧
        (∀ x, x ∈ [1; 2; 3] →
           h' !! x = store_123 !! x ∧
           ∃ p s, h' !! x = Some (LinkCell (Some p) (Some s))).
Proof.
  split; [by_compute|].
  apply (clear_resets_only_the_sentinel store_123 0 [1; 2; 3]). by_compute.
Defined.

(** ** Moving a list *)

Lemma ring_list_ctor (h : heap) :
  ∃ m h', list_ctor h = Some (List (Some m), h') ∧ (m ∉ dom h) ∧
          ring h' m [] ∧ ∀ q, q ≠ m → h' !! q = h !! q.
Proof.
  destruct (list_ctor_spec h _ eq_refl) as [Hfresh Hrun].
  eexists _, _. split; [exact Hrun|]. split; [done|]. split.
  - apply ring_empty. by rewrite lookup_insert_eq.
  - intros q Hq. by rewrite lookup_insert_ne.
Qed.

(** C8.  Let [L1] (sentinel [n1]) hold [xs].

    Move assignment.  For every other list [L2] (sentinel [n2], holding any
    [ys]), after [L2 = std::move(L1)] the moved-from list is a valid empty
    list ([empty()] is true, and an element can be pushed), and the assigned
    list holds [xs] in the same order.  "Other" means [n2 ≠ n1], and that
    [n2], being the sentinel that [list()] allocated for [L2], is none of
    the elements of [L1].  The one pair of lists left out is therefore the
    self-assignment [L1 = std::move(L1)]: there [clear()] runs first and the
    list ends up empty, whatever it held.

    Move construction.  The list that is move-constructed from [L1] holds
    [xs] in the same order and [L1] is left a valid empty list; nothing is
    assumed about any other list in the store. *)
Theorem move_leaves_source_empty
    (h : heap) (n1 : loc) (xs : list loc) :
  ring h n1 xs →
  (∀ n2 ys, ring h n2 ys → n2 ≠ n1 → n2 ∉ xs →
     ∃ L2' L1' m1 h',
       list_move_assign (List (Some n2)) (List (Some n1)) h
         = Some ((L2', L1'), h') ∧
       L2' = List (Some n1) ∧ ring h' n1 xs ∧
       L1' = List (Some m1) ∧ ring h' m1 [] ∧
       empty L1' h' = Some (true, h') ∧
       ∀ x, x ∈ dom h' → x ∉ m1 :: n1 :: xs →
            ∃ h'', push_back L1' x h' = Some (tt, h'') ∧ ring h'' m1 [x]) ∧
  (∃ L2' L1' m1 h',
     list_move_ctor (List (Some n1)) h = Some ((L2', L1'), h') ∧
     L2' = List (Some n1) ∧ ring h' n1 xs ∧
     L1' = List (Some m1) ∧ ring h' m1 [] ∧
     empty L1' h' = Some (true, h') ∧
     ∀ x, x ∈ dom h' → x ∉ m1 :: n1 :: xs →
          ∃ h'', push_back L1' x h' = Some (tt, h'') ∧ ring h'' m1 [x]).
Proof.
  intros Hr1. split.
  - intros n2 ys Hr2 Hne Hn2.
    destruct (ring_clear h n2 ys Hr2) as (h' & Hrun & Hr' & Hh').
    exists (List (Some n1)), (List (Some n2)), n2, h'.
    split. { unfold list_move_assign, bind. by rewrite Hrun. }
    split; [done|]. split.
    { eapply ring_frame; [exact Hr1|]. intros q Hq. subst h'.
      rewrite lookup_insert_ne; [done|]. intros ->.
      apply elem_of_cons in Hq as [?|?]; done. }
    split; [done|]. split; [done|]. split.
    { pose proof (ring_empty_iff _ _ _ Hr') as He.
      by rewrite bool_decide_eq_true_2 in He. }
    intros x Hx Hnin.
    assert (Hnin' : x ∉ [n2]) by (clear -Hnin; set_solver).
    destruct (wp_elim _ _ _ (ring_push_back h' n2 [] x Hr' Hx Hnin'))
      as ([] & h'' & Hrun' & Hr'' & _).
    by exists h''.
  - destruct (ring_list_ctor h) as (m & h' & Hrun & Hm & Hr' & Hf).
    exists (List (Some n1)), (List (Some m)), m, h'.
    split. { unfold list_move_ctor, bind. by rewrite Hrun. }
    split; [done|]. split.
    { eapply ring_frame; [exact Hr1|]. intros q Hq. apply Hf.
      intros ->. apply Hm. eapply ring_dom; [exact Hr1 | exact Hq]. }
    split; [done|]. split; [done|]. split.
    { pose proof (ring_empty_iff _ _ _ Hr') as He.
      by rewrite bool_decide_eq_true_2 in He. }
    intros x Hx Hnin.
    assert (Hnin' : x ∉ [m]) by (clear -Hnin; set_solver).
    destruct (wp_elim _ _ _ (ring_push_back h' m [] x Hr' Hx Hnin'))
      as ([] & h'' & Hrun' & Hr'' & _).
    by exists h''.
Qed.

Lemma move_leaves_source_empty_witness :
  ring store_two_lists 0 [1; 2; 3] ∧ ring store_two_lists 10 [11; 12] ∧
  10 ≠ 0 ∧ (10 ∉ [1; 2; 3]) ∧
  (∃ L2' L1' m1 h',
     list_move_assign (List (Some 10)) (List (Some 0)) store_two_lists
       = Some ((L2', L1'), h') ∧
     L2' = List (Some 0) ∧ ring h' 0 [1; 2; 3] ∧
     L1' = List (Some m1) ∧ ring h' m1 [] ∧
     empty L1' h' = Some (true, h') ∧
     ∀ x, x ∈ dom h' → x ∉ m1 :: 0 :: [1; 2; 3] →
          ∃ h'', push_back L1' x h' = Some (tt, h'') ∧ ring h'' m1 [x]) ∧
  (∃ L2' L1' m1 h',
     list_move_ctor (List (Some 0)) store_two_lists = Some ((L2', L1'), h') ∧
     L2' = List (Some 0) ∧ ring h' 0 [1; 2; 3] ∧
     L1' = List (Some m1) ∧ ring h' m1 [] ∧
     empty L1' h' = Some (true, h') ∧
     ∀ x, x ∈ dom h' → x ∉ m1 :: 0 :: [1; 2; 3] →
          ∃ h'', push_back L1' x h' = Some (tt, h'') ∧ ring h'' m1 [x]).
Proof.
  destruct (move_leaves_source_empty store_two_lists 0 [1; 2; 3])
    as [Hassign Hctor]; [by_compute|].
  split; [by_compute|]. split; [by_compute|]. split; [by_compute|].
  split; [by_compute|]. split; [|exact Hctor].
  apply (Hassign 10 [11; 12]); by_compute.
Defined.

(** ** Destroying an element *)






(** ** [splice] *)

Section splice.
Implicit Types (h : heap) (xs ys r : list loc) (n q : loc).
Implicit Types (this other : intrusive_list).

Lemma position_app n k xs : position n (k ++ xs) = position (position n xs) k.
Proof. unfold position. by destruct k. Qed.

(** [splice] from another list, for a range that may be empty. *)
Lemma ring_splice_from_other h this other nL xs1 xs2 nM ys1 r ys2 :
  ring h nL (xs1 ++ xs2) → ring h nM (ys1 ++ r ++ ys2) →
  (∀ q, q ∈ nL :: xs1 ++ xs2 → q ∉ nM :: ys1 ++ r ++ ys2) →
  wp (splice this (Iterator (Some (position nL xs2))) other
        (Iterator (Some (position (position nM ys2) r)))
        (Iterator (Some (position nM ys2)))) h
     (λ _ h', ring h' nL (xs1 ++ r ++ xs2) ∧ ring h' nM (ys1 ++ ys2) ∧
              (r = [] → h' = h) ∧
              ∀ q, q ∉ nL :: xs1 ++ xs2 → q ∉ nM :: ys1 ++ r ++ ys2 →
                   h' !! q = h !! q).
Proof.
  intros HL HM Hdisj. destruct r as [|f r'].
  - eapply wp_intro; [apply splice_empty_range|]. done.
  - destruct (last (f :: r')) as [pl|] eqn:Hpl.
    2:{ by apply last_None in Hpl. }
    eapply wp_mono.
    { eapply (ring_splice_other h this other nL xs1 xs2 nM ys1 (f :: r') ys2);
        [exact HL | exact HM | exact Hdisj | done | exact Hpl]. }
    intros [] h' (HL' & HM' & Hre). split; [done|]. split; [done|].
    split; [done|].
    intros q Hq1 Hq2. eapply respliced_frame; [exact Hre|].
    pose proof (last_of_elem_of nM ys1). pose proof (position_elem_of nM ys2).
    pose proof (last_of_elem_of nL xs1). pose proof (position_elem_of nL xs2).
    apply last_Some_elem_of in Hpl.
    clear HL HM HL' HM' Hre Hdisj. set_solver.
Qed.

(** [splice] within one list: [xs1 ++ xs2] is the list without the range,
    cut at the position. *)
Lemma ring_splice_same h this other n xs1 xs2 ys1 r ys2 :
  ring h n (ys1 ++ r ++ ys2) → xs1 ++ xs2 = ys1 ++ ys2 →
  wp (splice this (Iterator (Some (position n xs2))) other
        (Iterator (Some (position (position n ys2) r)))
        (Iterator (Some (position n ys2)))) h
     (λ _ h', ring h' n (xs1 ++ r ++ xs2) ∧
              (r = [] ∨ xs1 = ys1 → h' = h) ∧
              ∀ q, q ∉ n :: ys1 ++ r ++ ys2 → h' !! q = h !! q).
Proof.
  intros Hr Heq. destruct r as [|f r'].
  - eapply wp_intro; [apply splice_empty_range|]. simpl in *.
    by rewrite Heq.
  - assert (Hf : head (f :: r') = Some f) by done.
    change (position (position n ys2) (f :: r')) with f.
    destruct (last (f :: r')) as [pl|] eqn:Hpl.
    2:{ by apply last_None in Hpl. }
    assert (Hin_place : ring h n (ys1 ++ (f :: r') ++ ys2) →
      wp (splice this (Iterator (Some (position n ys2))) other
            (Iterator (Some f)) (Iterator (Some (position n ys2)))) h
         (λ _ h', ring h' n (ys1 ++ (f :: r') ++ ys2) ∧
                  (f :: r' = [] ∨ ys1 = ys1 → h' = h) ∧
                  ∀ q, q ∉ n :: ys1 ++ (f :: r') ++ ys2 →
                       h' !! q = h !! q)).
    { intros Hr0. eapply wp_intro.
      - by eapply (ring_splice_in_place h this other n ys1 (f :: r') ys2).
      - done. }
    destruct (app_eq_inv _ _ _ _ Heq) as [(k & -> & ->)|(k & -> & ->)];
      destruct k as [|c k'].
    + rewrite !app_nil_r in *. simpl app at 1. by apply Hin_place.
    + destruct (last (c :: k')) as [P|] eqn:HP.
      2:{ by apply last_None in HP. }
      change (position n ((c :: k') ++ xs2)) with c.
      eapply wp_mono.
      { eapply (ring_splice_after h this other n ys1 (f :: r') (c :: k') xs2);
          [exact Hr | exact Hf | exact Hpl | done | exact HP]. }
      intros [] h' [Hr' Hre]. split; [by rewrite <-app_assoc|]. split.
      { intros [?|E]; [done|]. apply (f_equal length) in E.
        rewrite length_app in E. simpl in E. lia. }
      intros q Hq. eapply respliced_frame; [exact Hre|].
      pose proof (last_of_elem_of n ys1). pose proof (position_elem_of n xs2).
      apply last_Some_elem_of in Hpl. apply last_Some_elem_of in HP.
      clear Hr Hr' Hre Heq Hin_place. set_solver.
    + rewrite !app_nil_r in *. simpl app at 1. by apply Hin_place.
    + destruct (last (c :: k')) as [A|] eqn:HA.
      2:{ by apply last_None in HA. }
      change (position n ((c :: k') ++ ys2)) with c.
      rewrite <-app_assoc in Hr.
      eapply wp_mono.
      { eapply (ring_splice_before h this other n xs1 (c :: k') (f :: r') ys2);
          [exact Hr | exact Hf | exact Hpl | done | exact HA]. }
      intros [] h' [Hr' Hre]. split; [done|]. split.
      { intros [?|E]; [done|]. apply (f_equal length) in E.
        rewrite length_app in E. simpl in E. lia. }
      intros q Hq. eapply respliced_frame; [exact Hre|].
      pose proof (last_of_elem_of n xs1). pose proof (position_elem_of n ys2).
      apply last_Some_elem_of in Hpl. apply last_Some_elem_of in HA.
      clear Hr Hr' Hre Heq Hin_place. set_solver.
Qed.
End splice.

Lemma apart_spec (l k : list loc) : apart l k ↔ ∀ q, q ∈ l → q ∉ k.
Proof. unfold apart. apply Forall_forall. Qed.

(** C3.  Let [L] (sentinel [nL]) hold [xs1 ++ xs2] and let a distinct list
    [M] (sentinel [nM]) hold [ys1 ++ r ++ ys2]; [r] is the range [a, b) of
    length [k = length r], [b] is the position of the head of [ys2], and
    [p] is the position of the head of [xs2].  Then [L.splice(p, M, a, b)]
    returns; [M] holds [ys1 ++ ys2] and [L] holds [xs1 ++ r ++ xs2]; the
    size of [L] has grown by [k] and the size of [M] has shrunk by [k]. *)
Theorem splice_between_lists
    (h : heap) (nL : loc) (xs1 xs2 : list loc)
    (nM : loc) (ys1 r ys2 : list loc) :
  ring h nL (xs1 ++ xs2) → ring h nM (ys1 ++ r ++ ys2) →
  apart (nL :: xs1 ++ xs2) (nM :: ys1 ++ r ++ ys2) →
  ∃ h' sL sM,
    splice (List (Some nL)) (Iterator (Some (position nL xs2)))
      (List (Some nM)) (Iterator (Some (position (position nM ys2) r)))
      (Iterator (Some (position nM ys2))) h = Some (tt, h') ∧
    ring h' nM (ys1 ++ ys2) ∧ ring h' nL (xs1 ++ r ++ xs2) ∧
    size_of (List (Some nL)) h = Some (sL, h) ∧
    size_of (List (Some nM)) h = Some (sM, h) ∧
    size_of (List (Some nL)) h' = Some (sL + length r, h') ∧
    size_of (List (Some nM)) h' = Some (sM - length r, h') ∧
    length r ≤ sM.
Proof.
  intros HL HM Hap. pose proof (proj1 (apart_spec _ _) Hap) as Hdisj.
  destruct (wp_elim _ _ _
              (ring_splice_from_other h (List (Some nL)) (List (Some nM))
                 nL xs1 xs2 nM ys1 r ys2 HL HM Hdisj))
    as ([] & h' & Hrun & HL' & HM' & _).
  exists h', (length (xs1 ++ xs2)), (length (ys1 ++ r ++ ys2)).
  split; [done|]. split; [done|]. split; [done|].
  rewrite (ring_size_of _ _ _ HL), (ring_size_of _ _ _ HM).
  rewrite (ring_size_of _ _ _ HL'), (ring_size_of _ _ _ HM').
  rewrite !length_app. split; [done|]. split; [done|].
  split; [do 2 f_equal; lia|]. split; [do 2 f_equal; lia|]. lia.
Qed.

Lemma splice_between_lists_witness :
  ring store_two_lists 10 ([11] ++ [12]) ∧
  ring store_two_lists 0 ([1] ++ [2; 3] ++ []) ∧
  apart (10 :: [11] ++ [12]) (0 :: [1] ++ [2; 3] ++ []) ∧
  ∃ h' sL sM,
    splice (List (Some 10)) (Iterator (Some (position 10 [12])))
      (List (Some 0)) (Iterator (Some (position (position 0 []) [2; 3])))
      (Iterator (Some (position 0 []))) store_two_lists = Some (tt, h') ∧
    ring h' 0 ([1] ++ []) ∧ ring h' 10 ([11] ++ [2; 3] ++ [12]) ∧
    size_of (List (Some 10)) store_two_lists = Some (sL, store_two_lists) ∧
    size_of (List (Some 0)) store_two_lists = Some (sM, store_two_lists) ∧
    size_of (List (Some 10)) h' = Some (sL + length [2; 3], h') ∧
    size_of (List (Some 0)) h' = Some (sM - length [2; 3], h') ∧
    length [2; 3] ≤ sM.
Proof.
  split; [by_compute|]. split; [by_compute|]. split; [by_compute|].
  apply (splice_between_lists store_two_lists 10 [11] [12] 0 [1] [2; 3] []);
    by_compute.
Defined.

(** C4, as amended.  Let the source list (sentinel [nM]) hold
    [ys1 ++ r ++ ys2], where [r] is the range [first, last).  The
    destination is either another list (sentinel [nL]) that holds
    [xs1 ++ xs2], or the same list, and then [xs1 ++ xs2] is the list
    without the range, [ys1 ++ ys2]; in both cases the position is that of
    the head of [xs2], so that in the same list it is outside the range
    (the position [last] itself is allowed).  Then [splice] returns, the
    destination holds [xs1 ++ r ++ xs2], a distinct source holds
    [ys1 ++ ys2], and the store does not change when the range is empty
    ([first == last]); nor does it when, in the same list, the position is
    [last]. *)
Theorem splice_moves_range
    (h : heap) (nL : loc) (xs1 xs2 : list loc)
    (nM : loc) (ys1 r ys2 : list loc) :
  ring h nM (ys1 ++ r ++ ys2) →
  (nL = nM ∧ xs1 ++ xs2 = ys1 ++ ys2) ∨
  (ring h nL (xs1 ++ xs2) ∧
   apart (nL :: xs1 ++ xs2) (nM :: ys1 ++ r ++ ys2)) →
  ∃ h',
    splice (List (Some nL)) (Iterator (Some (position nL xs2)))
      (List (Some nM)) (Iterator (Some (position (position nM ys2) r)))
      (Iterator (Some (position nM ys2))) h = Some (tt, h') ∧
    ring h' nL (xs1 ++ r ++ xs2) ∧
    (nL ≠ nM → ring h' nM (ys1 ++ ys2)) ∧
    (r = [] → h' = h) ∧
    (nL = nM → xs1 = ys1 → h' = h).
Proof.
  intros HM [[-> Heq]|[HL Hap]].
  - destruct (wp_elim _ _ _
                (ring_splice_same h (List (Some nM)) (List (Some nM))
                   nM xs1 xs2 ys1 r ys2 HM Heq))
      as ([] & h' & Hrun & Hr' & Hnoop & _).
    exists h'. split; [done|]. split; [done|]. split; [done|]. split; auto.
  - pose proof (proj1 (apart_spec _ _) Hap) as Hdisj.
    destruct (wp_elim _ _ _
                (ring_splice_from_other h (List (Some nL)) (List (Some nM))
                   nL xs1 xs2 nM ys1 r ys2 HL HM Hdisj))
      as ([] & h' & Hrun & HL' & HM' & Hnoop & _).
    exists h'. split; [done|]. split; [done|]. split; [done|].
    split; [done|]. intros ->. exfalso. apply (Hdisj nM); set_solver.
Qed.

Lemma splice_moves_range_witness :
  ring store_123 0 ([] ++ [1] ++ [2; 3]) ∧
  ((0 = 0 ∧ [2] ++ [3] = [] ++ [2; 3]) ∨
   (ring store_123 0 ([2] ++ [3]) ∧
    apart (0 :: [2] ++ [3]) (0 :: [] ++ [1] ++ [2; 3]))) ∧
  ∃ h',
    splice (List (Some 0)) (Iterator (Some (position 0 [3])))
      (List (Some 0)) (Iterator (Some (position (position 0 [2; 3]) [1])))
      (Iterator (Some (position 0 [2; 3]))) store_123 = Some (tt, h') ∧
    ring h' 0 ([2] ++ [1] ++ [3]) ∧
    (0 ≠ 0 → ring h' 0 ([] ++ [2; 3])) ∧
    ([1] = [] → h' = store_123) ∧
    (0 = 0 → [2] = [] → h' = store_123).
Proof.
  split; [by_compute|]. split; [left; split; reflexivity|].
  apply (splice_moves_range store_123 0 [2] [3] 0 [] [1] [2; 3]);
    [by_compute | left; split; reflexivity].
Defined.

(** C4, as stated, fails.  In the list 1, 2, 3 the range [1, 3) is spliced
    before position 2, which lies inside the range: the call returns, but
    afterwards the list holds 3 alone, and 1 and 2 are each linked to
    themselves instead of preceding the position.  And in the same list the
    range [1, 3) spliced before position 3 leaves the store as it was,
    although [first] and [last] differ. *)
Lemma splice_inside_range_counterexample :
  ring store_123 0 [1; 2; 3] ∧
  (∃ h', splice (List (Some 0)) (Iterator (Some 2)) (List (Some 0))
           (Iterator (Some 1)) (Iterator (Some 3)) store_123
         = Some (tt, h') ∧
         traverse_forward (List (Some 0)) h' = Some ([3], h') ∧
         h' !! 1 = Some (LinkCell (Some 1) (Some 1)) ∧
         h' !! 2 = Some (LinkCell (Some 2) (Some 2)) ∧
         ¬ ∃ xs, ring h' 0 xs ∧ 1 ∈ xs) ∧
  (iter_eq (Iterator (Some 1)) (Iterator (Some 3)) = false ∧
   splice (List (Some 0)) (Iterator (Some 3)) (List (Some 0))
     (Iterator (Some 1)) (Iterator (Some 3)) store_123
   = Some (tt, store_123)).
Proof.
  split; [by_compute|]. split.
  - eexists. split; [vm_compute; reflexivity|].
    split; [vm_compute; reflexivity|].
    split; [vm_compute; reflexivity|].
    split; [vm_compute; reflexivity|].
    intros (xs & Hr & Hin).
    apply ring_traverse in Hr as [Hf _].
    vm_compute in Hf. injection Hf as <-.
    apply list_elem_of_singleton in Hin. discriminate.
  - split; vm_compute; reflexivity.
Qed.

(** ** [push_back] followed by [pop_back] *)

(** What the pair of calls does: the list is back to what it held, every
    other cell is what it was, but the link of [x] still holds the two
    pointers that [push_back] gave it. *)
Lemma push_then_pop_back (h : heap) (n : loc) (xs : list loc) (x : loc) :
  ring h n xs → x ∈ dom h → x ∉ n :: xs →
  ∃ h1 h2, push_back (List (Some n)) x h = Some (tt, h1) ∧
           pop_back (List (Some n)) h1 = Some (tt, h2) ∧
           ring h2 n xs ∧
           (∀ q, q ≠ x → h2 !! q = h !! q) ∧
           h2 !! x = Some (LinkCell (Some (last_of n xs)) (Some n)).
Proof.
  intros Hr Hx Hnin.
  destruct (wp_elim _ _ _ (ring_push_back h n xs x Hr Hx Hnin))
    as ([] & h1 & Hrun1 & Hr1 & Hl).
  destruct (wp_elim _ _ _ (ring_pop_back h1 n xs x Hr1))
    as ([] & h2 & Hrun2 & Hr2 & Hb).
  exists h1, h2. split; [done|]. split; [done|]. split; [done|].
  pose proof (cyc_closes _ _ _ _ Hr (last_last_of_cons n xs) eq_refl)
    as [HPn HnP].
  pose proof (last_of_elem_of n xs) as HP.
  destruct Hl as (_ & [HPx HxP] & [Hxn Hnx] & HN1 & HP1).
  destruct Hb as (_ & [HPn2 HnP2] & HN2 & HP2).
  assert (x ≠ n) by set_solver.
  assert (x ≠ last_of n xs) by (intros E; rewrite <-E in HP; done).
  split.
  - intros q Hq. apply lookup_fields_eq.
    + destruct (decide (q = last_of n xs)) as [->|]; [congruence|].
      rewrite HN2, HN1; done.
    + destruct (decide (q = n)) as [->|]; [congruence|].
      rewrite HP2, HP1; done.
  - apply cell_fields. split.
    + rewrite HP2; done.
    + rewrite HN2; done.
Qed.

(** C2, on the code.  The list with sentinel 0 is empty and the link at 1
    is unset.  After [push_back] of 1 and [pop_back] the list is empty
    again, but the link at 1 is not unset: both its pointers still refer to
    the sentinel, whereas [erase] of the same element does leave it unset.
    The stale pointers are not harmless: when 2 is pushed next and 1 is
    then unlinked (as its destructor does), the list loses 2. *)
Theorem push_back_pop_back_leaves_link_set :
  ring store_empty_list 0 [] ∧ store_empty_list !! 1 = Some unset ∧
  (∃ h', (push_back (List (Some 0)) 1 ;;; pop_back (List (Some 0)))
           store_empty_list = Some (tt, h') ∧
         empty (List (Some 0)) h' = Some (true, h') ∧
         ring h' 0 [] ∧
         h' !! 1 = Some (LinkCell (Some 0) (Some 0)) ∧
         h' !! 1 ≠ Some unset) ∧
  (∃ it h', (push_back (List (Some 0)) 1 ;;;
             erase (List (Some 0)) (Iterator (Some 1)))
              store_empty_list = Some (it, h') ∧
            h' !! 1 = Some unset) ∧
  (∃ h', (push_back (List (Some 0)) 1 ;;; pop_back (List (Some 0)) ;;;
          push_back (List (Some 0)) 2 ;;; unlink (Some 1) ;;;
          traverse_forward (List (Some 0)))
           store_empty_list = Some ([], h') ∧
         h' !! 2 = Some (LinkCell (Some 0) (Some 0))).
Proof.
  split; [by_compute|]. split; [vm_compute; reflexivity|].
  split; [|split].
  - eexists. split; [vm_compute; reflexivity|].
    split; [vm_compute; reflexivity|]. split; [by_compute|].
    split; [vm_compute; reflexivity|]. vm_compute. discriminate.
  - eexists _, _. split; vm_compute; reflexivity.
  - eexists. split; vm_compute; reflexivity.
Qed.

(** * Programs over several lists: the invariant *)

Section worlds.
Implicit Types (w : world) (h : heap) (xs ys r : list loc) (l m n x q : loc).
Implicit Types (cont : loc → list loc).

Lemma contents_ring h l xs : ring h l xs → contents h l = Some xs.
Proof. intros [Hf _]%ring_traverse. unfold contents. by rewrite Hf. Qed.

Lemma from_spec first xs s :
  from first xs = Some s → ∃ ys1, xs = ys1 ++ s ∧ head s = Some first.
Proof.
  induction xs as [|a t IH]; simpl; [done|].
  destruct (decide (a = first)) as [->|Hne].
  - intros [= <-]. by exists [].
  - intros (ys1 & -> & Hh)%IH. by exists (a :: ys1).
Qed.

Lemma upto_spec last s r :
  upto last s = Some r → ∃ ys2, s = r ++ last :: ys2.
Proof.
  revert r. induction s as [|a t IH]; intros r; simpl; [done|].
  destruct (decide (a = last)) as [->|Hne].
  - intros [= <-]. by exists t.
  - destruct (upto last t) as [r'|]; [|done]. intros [= <-].
    destruct (IH r' eq_refl) as (ys2 & ->). by exists ys2.
Qed.

Lemma range_spec n xs first last r :
  first ≠ last → range n xs first last = Some r →
  ∃ ys1 ys2, xs = ys1 ++ r ++ ys2 ∧
             first = position (position n ys2) r ∧
             last = position n ys2.
Proof.
  intros Hne. unfold range. rewrite decide_False by done.
  destruct (from first xs) as [s|] eqn:Hs; [|done].
  apply from_spec in Hs as (ys1 & -> & Hh).
  destruct (decide (last = n)) as [->|Hn].
  - intros [= <-]. exists ys1, []. rewrite app_nil_r.
    split; [done|]. split; [|done]. unfold position. by rewrite Hh.
  - intros (ys2 & ->)%upto_spec. exists ys1, (last :: ys2).
    split; [done|]. split; [|done].
    destruct r as [|a r']; [simpl in Hh; congruence|].
    simpl in Hh. unfold position. simpl. congruence.
Qed.

Lemma split_position l xs pos :
  pos ∈ xs ++ [l] → ∃ xs1 xs2, xs = xs1 ++ xs2 ∧ pos = position l xs2.
Proof.
  intros [Hin|Hl%list_elem_of_singleton]%elem_of_app.
  - apply list_elem_of_split in Hin as (xs1 & xs2 & ->). by exists xs1, (pos :: xs2).
  - exists xs, []. by rewrite app_nil_r.
Qed.

(** What the precondition on an element means under the invariant. *)
Lemma unlinked_spec w cont x :
  (∀ l, l ∈ lists w → ring (store w) l (cont l)) →
  unlinked w x →
  x ∈ dom (store w) ∧ ∀ l, l ∈ lists w → x ∉ l :: cont l.
Proof.
  intros Hr [Hd Hf]. split; [done|]. intros l Hl.
  rewrite Forall_forall in Hf. specialize (Hf l Hl).
  unfold not_in_list in Hf. by rewrite (contents_ring _ _ _ (Hr l Hl)) in Hf.
Qed.

(** One list changes: its new cells are old cells of its own or cells of
    no list, and the cells of the other lists are untouched. *)
Lemma wf_update1 w cont h' l new :
  (∀ k, k ∈ lists w → ring (store w) k (cont k)) →
  (∀ k m, k ∈ lists w → m ∈ lists w → k ≠ m →
          ∀ q, q ∈ k :: cont k → q ∉ m :: cont m) →
  l ∈ lists w → ring h' l new →
  (∀ q, q ∈ l :: new →
        q ∈ l :: cont l ∨ ∀ m, m ∈ lists w → q ∉ m :: cont m) →
  (∀ m q, m ∈ lists w → m ≠ l → q ∈ m :: cont m →
          h' !! q = store w !! q) →
  wf (World h' (lists w)).
Proof.
  intros Hr Hd Hl Hnew Hcells Hframe.
  exists (λ k, if decide (k = l) then new else cont k). simpl. split.
  - intros k Hk. destruct (decide (k = l)) as [->|Hne]; [done|].
    eapply ring_frame; [by apply Hr|]. intros q Hq. by eapply Hframe.
  - intros k m Hk Hm Hne q.
    destruct (decide (k = l)) as [->|Hkl], (decide (m = l)) as [->|Hml];
      intros Hq; [done| | |exact (Hd k m Hk Hm Hne q Hq)].
    + destruct (Hcells q Hq) as [Hold|Hfree];
        [exact (Hd l m Hl Hm Hne q Hold) | by apply Hfree].
    + intros Hq'. destruct (Hcells q Hq') as [Hold|Hfree].
      * by eapply (Hd k l Hk Hl Hkl q).
      * by eapply (Hfree k).
Qed.

(** Two lists change and exchange cells; the others are untouched. *)
Lemma wf_update2 w cont h' l m newl newm :
  (∀ k, k ∈ lists w → ring (store w) k (cont k)) →
  (∀ k k', k ∈ lists w → k' ∈ lists w → k ≠ k' →
           ∀ q, q ∈ k :: cont k → q ∉ k' :: cont k') →
  l ∈ lists w → m ∈ lists w → l ≠ m →
  ring h' l newl → ring h' m newm →
  (∀ q, q ∈ l :: newl → q ∈ l :: cont l ∨ q ∈ m :: cont m) →
  (∀ q, q ∈ m :: newm → q ∈ l :: cont l ∨ q ∈ m :: cont m) →
  (∀ q, q ∈ l :: newl → q ∉ m :: newm) →
  (∀ k q, k ∈ lists w → k ≠ l → k ≠ m → q ∈ k :: cont k →
          h' !! q = store w !! q) →
  wf (World h' (lists w)).
Proof.
  intros Hr Hd Hl Hm Hlm Hnl Hnm Hcl Hcm Hsep Hframe.
  exists (λ k, if decide (k = l) then newl
               else if decide (k = m) then newm else cont k).
  simpl. split.
  - intros k Hk. destruct (decide (k = l)) as [->|Hkl]; [done|].
    destruct (decide (k = m)) as [->|Hkm]; [done|].
    eapply ring_frame; [by apply Hr|]. intros q Hq. by eapply Hframe.
  - assert (Hother : ∀ k q, k ∈ lists w → k ≠ l → k ≠ m →
              q ∈ l :: cont l ∨ q ∈ m :: cont m → q ∉ k :: cont k).
    { intros k q Hk Hkl Hkm [Hq|Hq] Hq'.
      - by eapply (Hd k l Hk Hl Hkl q).
      - by eapply (Hd k m Hk Hm Hkm q). }
    intros k k' Hk Hk' Hne q.
    destruct (decide (k = l)) as [->|Hkl].
    + destruct (decide (k' = l)) as [->|Hk'l]; [done|].
      destruct (decide (k' = m)) as [->|Hk'm]; [by apply Hsep|].
      intros Hq. eapply Hother; eauto.
    + destruct (decide (k = m)) as [->|Hkm].
      * destruct (decide (k' = l)) as [->|Hk'l].
        { intros Hq Hq'. by eapply Hsep. }
        destruct (decide (k' = m)) as [->|Hk'm]; [done|].
        intros Hq. eapply Hother; eauto.
      * destruct (decide (k' = l)) as [->|Hk'l].
        { intros Hq Hq'. eapply (Hother k q); eauto. }
        destruct (decide (k' = m)) as [->|Hk'm].
        { intros Hq Hq'. eapply (Hother k q); eauto. }
        intros Hq. exact (Hd k k' Hk Hk' Hne q Hq).
Qed.
End worlds.

(** ** Every call under its precondition returns and keeps the invariant *)

Section steps.
Implicit Types (w : world) (h : heap) (xs ys r : list loc) (l m n x q : loc).

Lemma step_new_list w : wf w → ∃ w', step New_list w = Some w' ∧ wf w'.
Proof.
  intros (cont & Hr & Hd).
  destruct (list_ctor_spec (store w) _ eq_refl) as [Hfresh Hrun].
  set (n := fresh (dom (store w))) in *.
  eexists. split. { unfold step. rewrite Hrun. reflexivity. }
  assert (Hn : ∀ l q, l ∈ lists w → q ∈ l :: cont l → q ≠ n).
  { intros l q Hl Hq ->. apply Hfresh. eapply ring_dom; [by apply Hr|done]. }
  exists (λ k, if decide (k = n) then [] else cont k). simpl. split.
  - intros l [->|Hl]%elem_of_cons.
    + rewrite decide_True by done. apply ring_empty.
      by rewrite lookup_insert_eq.
    + rewrite decide_False.
      2:{ eapply Hn; [exact Hl | set_solver]. }
      eapply ring_frame; [by apply Hr|]. intros q Hq.
      rewrite lookup_insert_ne; [done|]. intros E. by eapply Hn.
  - intros l m [->|Hl]%elem_of_cons [->|Hm]%elem_of_cons Hne q; [done|..].
    + rewrite decide_True by done. rewrite decide_False.
      2:{ eapply Hn; [exact Hm | set_solver]. }
      intros ->%list_elem_of_singleton Hq. by eapply Hn.
    + rewrite decide_False.
      2:{ eapply Hn; [exact Hl | set_solver]. }
      rewrite decide_True by done.
      intros Hq ->%list_elem_of_singleton. by eapply Hn.
    + rewrite !decide_False.
      2:{ eapply Hn; [exact Hm | set_solver]. }
      2:{ eapply Hn; [exact Hl | set_solver]. }
      by apply Hd.
Qed.

Lemma step_new_element w x :
  wf w → x ∉ dom (store w) →
  ∃ w', step (New_element x) w = Some w' ∧ wf w'.
Proof.
  intros (cont & Hr & Hd) Hx. eexists. split; [reflexivity|].
  exists cont. simpl. split; [|done].
  intros l Hl. eapply ring_frame; [by apply Hr|]. intros q Hq.
  rewrite lookup_insert_ne; [done|]. intros ->. apply Hx.
  eapply ring_dom; [by apply Hr|done].
Qed.

Lemma step_push_back w l x :
  wf w → l ∈ lists w → unlinked w x →
  ∃ w', step (Push_back l x) w = Some w' ∧ wf w'.
Proof.
  intros (cont & Hr & Hd) Hl Hx.
  destruct (unlinked_spec w cont x Hr Hx) as [Hdom Hfree].
  destruct (wp_elim _ _ _
              (ring_push_back (store w) l (cont l) x (Hr l Hl) Hdom
                 (Hfree l Hl)))
    as ([] & h' & Hrun & Hr' & Hli).
  eexists. split. { unfold step. rewrite Hrun. reflexivity. }
  eapply wf_update1; [exact Hr | exact Hd | exact Hl | exact Hr' | |].
  - intros q [Hq| ->%list_elem_of_singleton]%(elem_of_app (l :: cont l)); auto.
  - intros m q Hm Hne Hq. eapply linked_in_frame; [exact Hli|..].
    + intros ->. eapply (Hd m l Hm Hl Hne); [done|apply last_of_elem_of].
    + intros ->. by eapply Hfree.
    + intros ->. eapply (Hd m l Hm Hl Hne); [done|set_solver].
Qed.

Lemma step_push_front w l x :
  wf w → l ∈ lists w → unlinked w x →
  ∃ w', step (Push_front l x) w = Some w' ∧ wf w'.
Proof.
  intros (cont & Hr & Hd) Hl Hx.
  destruct (unlinked_spec w cont x Hr Hx) as [Hdom Hfree].
  destruct (wp_elim _ _ _
              (ring_push_front (store w) l (cont l) x (Hr l Hl) Hdom
                 (Hfree l Hl)))
    as ([] & h' & Hrun & Hr' & Hli).
  eexists. split. { unfold step. rewrite Hrun. reflexivity. }
  eapply wf_update1; [exact Hr | exact Hd | exact Hl | exact Hr' | |].
  - intros q Hq. assert (q = x ∨ q ∈ l :: cont l) as [->|?] by set_solver;
      auto.
  - intros m q Hm Hne Hq. eapply linked_in_frame; [exact Hli|..].
    + intros ->. eapply (Hd m l Hm Hl Hne); [done|set_solver].
    + intros ->. by eapply Hfree.
    + intros ->. eapply (Hd m l Hm Hl Hne); [done|apply position_elem_of].
Qed.

Lemma step_insert w l pos x :
  wf w → l ∈ lists w → is_position (store w) l pos → unlinked w x →
  ∃ w', step (Insert l pos x) w = Some w' ∧ wf w'.
Proof.
  intros (cont & Hr & Hd) Hl Hpos Hx.
  destruct (unlinked_spec w cont x Hr Hx) as [Hdom Hfree].
  unfold is_position in Hpos.
  rewrite (contents_ring _ _ _ (Hr l Hl)) in Hpos.
  apply split_position in Hpos as (xs1 & xs2 & Hc & ->).
  pose proof (Hr l Hl) as Hrl. pose proof (Hfree l Hl) as Hxl.
  rewrite Hc in Hrl, Hxl.
  destruct (wp_elim _ _ _
              (ring_insert (store w) (List (Some l)) l xs1 xs2 x
                 Hrl Hdom Hxl))
    as (it & h' & Hrun & _ & Hr' & Hli).
  eexists. split. { unfold step. rewrite Hrun. reflexivity. }
  eapply wf_update1; [exact Hr | exact Hd | exact Hl | exact Hr' | |].
  - intros q Hq. rewrite Hc.
    assert (q = x ∨ q ∈ l :: xs1 ++ xs2) as [->|?] by set_solver; auto.
  - intros m q Hm Hne Hq. eapply linked_in_frame; [exact Hli|..].
    + intros ->. eapply (Hd m l Hm Hl Hne); [done|].
      rewrite Hc. pose proof (last_of_elem_of l xs1). set_solver.
    + intros ->. by eapply Hfree.
    + intros ->. eapply (Hd m l Hm Hl Hne); [done|].
      rewrite Hc. pose proof (position_elem_of l xs2). set_solver.
Qed.

Lemma step_erase w l pos :
  wf w → l ∈ lists w → is_element (store w) l pos →
  ∃ w', step (Erase l pos) w = Some w' ∧ wf w'.
Proof.
  intros (cont & Hr & Hd) Hl Hpos.
  unfold is_element in Hpos.
  rewrite (contents_ring _ _ _ (Hr l Hl)) in Hpos.
  apply list_elem_of_split in Hpos as (xs1 & xs2 & Hc).
  pose proof (Hr l Hl) as Hrl. rewrite Hc in Hrl.
  destruct (wp_elim _ _ _
              (ring_erase (store w) (List (Some l)) l xs1 pos xs2 Hrl))
    as (it & h' & Hrun & _ & Hr' & He).
  eexists. split. { unfold step. rewrite Hrun. reflexivity. }
  eapply wf_update1; [exact Hr | exact Hd | exact Hl | exact Hr' | |].
  - intros q Hq. left. rewrite Hc. set_solver.
  - intros m q Hm Hne Hq. eapply erased_frame; [exact He|..].
    + intros ->. eapply (Hd m l Hm Hl Hne); [done|].
      rewrite Hc. pose proof (last_of_elem_of l xs1). set_solver.
    + intros ->. eapply (Hd m l Hm Hl Hne); [done|].
      rewrite Hc. set_solver.
    + intros ->. eapply (Hd m l Hm Hl Hne); [done|].
      rewrite Hc. pose proof (position_elem_of l xs2). set_solver.
Qed.

Lemma step_pop_front w l :
  wf w → l ∈ lists w → (∃ x, is_element (store w) l x) →
  ∃ w', step (Pop_front l) w = Some w' ∧ wf w'.
Proof.
  intros (cont & Hr & Hd) Hl [x Hx].
  unfold is_element in Hx.
  rewrite (contents_ring _ _ _ (Hr l Hl)) in Hx.
  destruct (cont l) as [|a t] eqn:Hc; [by apply not_elem_of_nil in Hx|].
  pose proof (Hr l Hl) as Hrl. rewrite Hc in Hrl.
  destruct (wp_elim _ _ _ (ring_pop_front (store w) l t a Hrl))
    as ([] & h' & Hrun & Hr' & Hb).
  eexists. split. { unfold step. rewrite Hrun. reflexivity. }
  eapply wf_update1; [exact Hr | exact Hd | exact Hl | exact Hr' | |].
  - intros q Hq. left. rewrite Hc. set_solver.
  - intros m q Hm Hne Hq. eapply bypassed_frame; [exact Hb|..].
    + intros ->. eapply (Hd m l Hm Hl Hne); [done|set_solver].
    + intros ->. eapply (Hd m l Hm Hl Hne); [done|].
      rewrite Hc. pose proof (position_elem_of l t). set_solver.
Qed.

Lemma step_pop_back w l :
  wf w → l ∈ lists w → (∃ x, is_element (store w) l x) →
  ∃ w', step (Pop_back l) w = Some w' ∧ wf w'.
Proof.
  intros (cont & Hr & Hd) Hl [x Hx].
  unfold is_element in Hx.
  rewrite (contents_ring _ _ _ (Hr l Hl)) in Hx.
  destruct (last (cont l)) as [a|] eqn:Hla.
  2:{ apply last_None in Hla. rewrite Hla in Hx.
      by apply not_elem_of_nil in Hx. }
  apply last_Some in Hla as [t Hc].
  pose proof (Hr l Hl) as Hrl. rewrite Hc in Hrl.
  destruct (wp_elim _ _ _ (ring_pop_back (store w) l t a Hrl))
    as ([] & h' & Hrun & Hr' & Hb).
  eexists. split. { unfold step. rewrite Hrun. reflexivity. }
  eapply wf_update1; [exact Hr | exact Hd | exact Hl | exact Hr' | |].
  - intros q Hq. left. rewrite Hc. set_solver.
  - intros m q Hm Hne Hq. eapply bypassed_frame; [exact Hb|..].
    + intros ->. eapply (Hd m l Hm Hl Hne); [done|].
      rewrite Hc. pose proof (last_of_elem_of l t). set_solver.
    + intros ->. eapply (Hd m l Hm Hl Hne); [done|set_solver].
Qed.

Lemma step_clear w l :
  wf w → l ∈ lists w → ∃ w', step (Clear l) w = Some w' ∧ wf w'.
Proof.
  intros (cont & Hr & Hd) Hl.
  destruct (ring_clear (store w) l (cont l) (Hr l Hl))
    as (h' & Hrun & Hr' & Hh').
  eexists. split. { unfold step. rewrite Hrun. reflexivity. }
  eapply wf_update1; [exact Hr | exact Hd | exact Hl | exact Hr' | |].
  - intros q Hq. left. set_solver.
  - intros m q Hm Hne Hq. subst h'. rewrite lookup_insert_ne; [done|].
    intros <-. eapply (Hd m l Hm Hl Hne); [done|set_solver].
Qed.

Lemma step_splice w l pos m first last :
  wf w → l ∈ lists w → m ∈ lists w →
  is_position (store w) l pos →
  is_range_for (store w) l pos m first last →
  ∃ w', step (Splice l pos m first last) w = Some w' ∧ wf w'.
Proof.
  intros Hwf Hl Hm Hpos Hrange.
  destruct (decide (first = last)) as [->|Hne].
  { exists w. split; [|done]. unfold step.
    rewrite splice_empty_range. by destruct w. }
  destruct Hwf as (cont & Hr & Hd).
  unfold is_range_for in Hrange.
  rewrite (contents_ring _ _ _ (Hr m Hm)) in Hrange.
  destruct (range m (cont m) first last) as [r|] eqn:Hrg; [|done].
  apply range_spec in Hrg as (ys1 & ys2 & Hcm & -> & ->); [|done].
  unfold is_position in Hpos.
  rewrite (contents_ring _ _ _ (Hr l Hl)) in Hpos.
  pose proof (Hr m Hm) as Hrm. rewrite Hcm in Hrm.
  destruct (decide (l = m)) as [->|Hlm].
  - specialize (Hrange eq_refl).
    assert (Hpos' : pos ∈ (ys1 ++ ys2) ++ [m]).
    { rewrite Hcm in Hpos. clear -Hpos Hrange. set_solver. }
    apply split_position in Hpos' as (xs1 & xs2 & Heq & ->).
    symmetry in Heq.
    destruct (wp_elim _ _ _
                (ring_splice_same (store w) (List (Some m)) (List (Some m))
                   m xs1 xs2 ys1 r ys2 Hrm Heq))
      as ([] & h' & Hrun & Hr' & _ & Hframe).
    eexists. split. { unfold step. rewrite Hrun. reflexivity. }
    assert (Hmem : ∀ q, q ∈ xs1 ++ xs2 ↔ q ∈ ys1 ++ ys2) by by rewrite Heq.
    eapply wf_update1; [exact Hr | exact Hd | exact Hm | exact Hr' | |].
    + intros q Hq. left. rewrite Hcm.
      clear -Hq Hmem. specialize (Hmem q). set_solver.
    + intros k q Hk Hkm Hq. apply Hframe. rewrite <-Hcm.
      by eapply Hd.
  - apply split_position in Hpos as (xs1 & xs2 & Hcl & ->).
    pose proof (Hr l Hl) as Hrl. rewrite Hcl in Hrl.
    assert (Hdisj : ∀ q, q ∈ l :: xs1 ++ xs2 → q ∉ m :: ys1 ++ r ++ ys2).
    { rewrite <-Hcl, <-Hcm. by apply Hd. }
    destruct (wp_elim _ _ _
                (ring_splice_from_other (store w) (List (Some l))
                   (List (Some m)) l xs1 xs2 m ys1 r ys2 Hrl Hrm Hdisj))
      as ([] & h' & Hrun & Hrl' & Hrm' & _ & Hframe).
    eexists. split. { unfold step. rewrite Hrun. reflexivity. }
    eapply wf_update2;
      [exact Hr | exact Hd | exact Hl | exact Hm | exact Hlm
      | exact Hrl' | exact Hrm' | | | |].
    + intros q Hq. rewrite Hcl, Hcm. clear -Hq. set_solver.
    + intros q Hq. right. rewrite Hcm. clear -Hq. set_solver.
    + destruct Hrm as [Hnd _]. revert Hnd.
      rewrite NoDup_cons, !NoDup_app. clear -Hdisj. set_solver.
    + intros k q Hk Hkl Hkm Hq. apply Hframe.
      * rewrite <-Hcl. by eapply Hd.
      * rewrite <-Hcm. by eapply Hd.
Qed.

(** Progress and preservation, for every call. *)
Lemma step_wf w o : wf w → pre w o → ∃ w', step o w = Some w' ∧ wf w'.
Proof.
  intros Hwf Hpre. destruct o; simpl in Hpre.
  - by apply step_new_list.
  - by apply step_new_element.
  - destruct Hpre. by apply step_push_front.
  - destruct Hpre. by apply step_push_back.
  - destruct Hpre. by apply step_pop_front.
  - destruct Hpre. by apply step_pop_back.
  - by apply step_clear.
  - destruct Hpre as (? & ? & ?). by apply step_insert.
  - destruct Hpre. by apply step_erase.
  - destruct Hpre as (? & ? & ? & ?). by apply step_splice.
Qed.

Lemma wf_init : wf init.
Proof.
  exists (λ _, []). simpl. split; intros l; [|intros m];
    intros Hl; by apply not_elem_of_nil in Hl.
Qed.

Lemma run_all_wf os w w' : wf w → run_all os w = Some w' → wf w'.
Proof.
  revert w. induction os as [|o os IH]; intros w Hwf; simpl.
  - by intros [= <-].
  - unfold run. destruct (decide (pre w o)) as [Hpre|]; [|done].
    destruct (step_wf w o Hwf Hpre) as (w1 & -> & Hwf1). by apply IH.
Qed.
End steps.

(** C1.  Every run from the empty program state, in which lists and
    elements are constructed and every call of [push_front], [push_back],
    [insert], [erase] and [splice] (and of [pop_front], [pop_back] and
    [clear]) is made under its stated precondition, ends in a state where
    each list is a consistent ring: the forward traversal from [begin()]
    comes back to the sentinel after the distinct elements [xs], the
    backward traversal from [end()] visits exactly [xs] reversed, every
    cell of the ring has both pointers set and its two neighbours, which
    are cells of the same ring, point back at it; and no two lists share a
    cell.  In such a state every call whose precondition holds returns. *)
Theorem ring_invariant (os : list op) (w : world) :
  run_all os init = Some w →
  (∀ l, l ∈ lists w →
     ∃ xs,
       traverse_forward (List (Some l)) (store w) = Some (xs, store w) ∧
       traverse_backward (List (Some l)) (store w)
       = Some (reverse xs, store w) ∧
       NoDup (l :: xs) ∧
       ∀ q, q ∈ l :: xs →
            ∃ p s, p ∈ l :: xs ∧ s ∈ l :: xs ∧
                   store w !! q = Some (LinkCell (Some p) (Some s)) ∧
                   nxt (store w) p = Some (Some q) ∧
                   prv (store w) s = Some (Some q)) ∧
  (∀ l m xs ys, l ∈ lists w → m ∈ lists w → l ≠ m →
     contents (store w) l = Some xs → contents (store w) m = Some ys →
     apart (l :: xs) (m :: ys)) ∧
  (∀ o, pre w o → ∃ w', run o w = Some w').
Proof.
  intros Hrun. pose proof (run_all_wf os init w wf_init Hrun) as Hwf.
  split; [|split].
  - destruct Hwf as (cont & Hr & _). intros l Hl. exists (cont l).
    destruct (ring_traverse _ _ _ (Hr l Hl)) as [Hf Hb].
    split; [done|]. split; [done|]. split; [by destruct (Hr l Hl)|].
    intros q Hq.
    destruct (cyc_cell _ _ q (Hr l Hl) Hq)
      as (p & s & Hp & Hs & Hc & [Hpq _] & [_ Hqs]).
    by exists p, s.
  - destruct Hwf as (cont & Hr & Hd). intros l m xs ys Hl Hm Hne.
    rewrite (contents_ring _ _ _ (Hr l Hl)), (contents_ring _ _ _ (Hr m Hm)).
    intros [= <-] [= <-]. apply apart_spec. by apply Hd.
  - intros o Hpre. destruct (step_wf w o Hwf Hpre) as (w' & Hstep & _).
    exists w'. unfold run. by rewrite decide_True.
Qed.

Lemma ring_invariant_witness :
  run_all example_program init = Some example_final ∧
  (∀ l, l ∈ lists example_final →
     ∃ xs,
       traverse_forward (List (Some l)) (store example_final)
       = Some (xs, store example_final) ∧
       traverse_backward (List (Some l)) (store example_final)
       = Some (reverse xs, store example_final) ∧
       NoDup (l :: xs) ∧
       ∀ q, q ∈ l :: xs →
            ∃ p s, p ∈ l :: xs ∧ s ∈ l :: xs ∧
                   store example_final !! q
                   = Some (LinkCell (Some p) (Some s)) ∧
                   nxt (store example_final) p = Some (Some q) ∧
                   prv (store example_final) s = Some (Some q)) ∧
  (∀ l m xs ys, l ∈ lists example_final → m ∈ lists example_final → l ≠ m →
     contents (store example_final) l = Some xs →
     contents (store example_final) m = Some ys →
     apart (l :: xs) (m :: ys)) ∧
  (∀ o, pre example_final o → ∃ w', run o example_final = Some w').
Proof.
  split; [vm_compute; reflexivity|].
  apply (ring_invariant example_program example_final).
  vm_compute. reflexivity.
Defined.

(** ** Destroying an element that [clear()] dropped *)


(** * Tags *)

(** A call that returns has changed the links of the tag of its list only,
    and what it does depends on these links only. *)
Lemma call_frame (T : value_type) (Tag : tag) (this : intrusive_list)
    (f : member) (s s' : tagged_store) :
  call T Tag this f s = Some s' → ∀ G, G ≠ Tag → s' G = s G.
Proof.
  unfold call. destruct (well_formed T Tag f); [|done].
  destruct (body this f (s Tag)) as [[[] h']|]; [|done].
  intros [= <-] G HG. by apply fn_lookup_insert_ne.
Qed.

Lemma call_own_tag (T : value_type) (Tag : tag) (this : intrusive_list)
    (f : member) (s1 s2 : tagged_store) :
  s1 Tag = s2 Tag →
  (λ s', s' Tag) <$> call T Tag this f s1
  = (λ s', s' Tag) <$> call T Tag this f s2.
Proof.
  intros E. unfold call. destruct (well_formed T Tag f); [|done].
  rewrite E. destruct (body this f (s2 Tag)) as [[[] h']|]; [|done].
  simpl. f_equal. etrans; [apply fn_lookup_insert|]. symmetry.
  apply fn_lookup_insert.
Qed.

(** A value type whose only link has the default tag can call every member
    function. *)
Lemma well_formed_default (f : member) :
  well_formed [default_tag] default_tag f = true.
Proof. by destruct f. Qed.

(** A value type with several links can call [push_back], [pop_back] and
    [pop_front] only. *)
Lemma well_formed_several_links (T : value_type) (Tag : tag) (f : member) :
  1 < length T → well_formed T Tag f = true →
  match f with
  | call_push_back _ | call_pop_back | call_pop_front => True
  | _ => False
  end.
Proof.
  intros Hlen. unfold well_formed, member_base.
  destruct T as [|G1 [|G2 T']]; simpl in Hlen; [lia | lia |].
  destruct f; try done; intros Hf;
    repeat (apply andb_prop in Hf as [? Hf]);
    by apply bool_decide_eq_true in Hf.
Qed.

(** C10, on the code.  The value at address 1 embeds a link of the default
    tag and a link of [user_tag 1].  The list of [user_tag 1] can
    [push_back] it, and only links of that tag change; but neither
    [push_front] nor [insert] can be called on it: their bodies name
    [list_element<>], the link of the default tag, and cannot be
    instantiated with another tag.  They cannot be called on the list of
    the default tag either, where [element.next] is ambiguous, and a value
    type with the single tag [user_tag 1] cannot call them; only a value
    type whose single link has the default tag can. *)
Theorem push_front_ignores_the_tag :
  well_formed two_links (user_tag 1) (call_push_front 1) = false ∧
  well_formed two_links (user_tag 1) (call_insert 3 1) = false ∧
  call two_links (user_tag 1) (List (Some 3)) (call_push_front 1)
    store_two_links = None ∧
  call two_links (user_tag 1) (List (Some 3)) (call_insert 3 1)
    store_two_links = None ∧
  call two_links default_tag (List (Some 0)) (call_push_front 1)
    store_two_links = None ∧
  well_formed [user_tag 1] (user_tag 1) (call_push_front 1) = false ∧
  well_formed [user_tag 1] (user_tag 1) (call_insert 3 1) = false ∧
  (∃ s', call two_links (user_tag 1) (List (Some 3)) (call_push_back 1)
           store_two_links = Some s' ∧
         ring (s' (user_tag 1)) 3 [1] ∧
         s' default_tag = store_two_links default_tag ∧
         s' default_tag !! 1 = Some unset) ∧
  (∃ s', call [default_tag] default_tag (List (Some 0)) (call_push_front 1)
           store_two_links = Some s' ∧
         ring (s' default_tag) 0 [1]).
Proof.
  repeat (split; [vm_compute; reflexivity|]). split.
  - eexists. split; [reflexivity|]. split; [by_compute|].
    split; reflexivity.
  - eexists. split; [reflexivity|]. by_compute.
Qed.

(** * Further properties of the member functions *)

Section neighbours.
Implicit Types (h : heap) (xs ys r : list loc) (n x q : loc).

(** In a ring the cell before a position is linked to the position. *)
Lemma ring_position_link h n xs1 xs2 :
  ring h n (xs1 ++ xs2) → link h (last_of n xs1) (position n xs2).
Proof.
  intros Hr%ring_at.
  exact (cyc_closes _ _ _ _ Hr (last_last_of n xs1 xs2)
           (head_position n xs2 xs1)).
Qed.

(** The two neighbours of an element of a ring. *)
Lemma ring_element_links h n xs1 x xs2 :
  ring h n (xs1 ++ x :: xs2) →
  link h (last_of n xs1) x ∧ link h x (position n xs2) ∧
  x ≠ last_of n xs1 ∧ x ≠ position n xs2 ∧ x ∉ n :: xs1 ++ xs2.
Proof.
  intros Hr. pose proof Hr as Hc%ring_at. simpl in Hc.
  destruct (cyc_head_links _ _ _ _ _ Hc (last_last_of n xs1 xs2)
              (head_position n xs2 xs1)) as (HPx & HxS & ? & ?).
  repeat (split; [done|]).
  destruct Hr as [Hnd _]. revert Hnd.
  rewrite !NoDup_cons, NoDup_app, NoDup_cons. set_solver.
Qed.
End neighbours.

(** ** [pop_front] and [pop_back] *)

(** X1.  For a list with sentinel [n] that holds [x :: xs], [pop_front]
    returns and the list then holds [xs]; only the sentinel and the new
    first position are written, so that the link of [x] keeps the two
    pointers it had.  [erase] at [begin()] leaves the same store except for
    the link of [x], which it resets. *)
Theorem pop_front_detaches_first
    (h : heap) (n x : loc) (xs : list loc) :
  ring h n (x :: xs) →
  ∃ h1 h2,
    pop_front (List (Some n)) h = Some (tt, h1) ∧
    ring h1 n xs ∧
    h1 !! x = Some (LinkCell (Some n) (Some (position n xs))) ∧
    (∀ q, q ∉ [n; position n xs] → h1 !! q = h !! q) ∧
    erase (List (Some n)) (Iterator (Some x)) h
    = Some (Iterator (Some (position n xs)), h2) ∧
    h2 !! x = Some unset ∧
    ∀ q, q ≠ x → h2 !! q = h1 !! q.
Proof.
  intros Hr.
  destruct (ring_element_links h n [] x xs Hr)
    as ([Hnx Hxn] & [HxS HSx] & Hxn' & HxS' & _).
  change (last_of n []) with n in *.
  destruct (wp_elim _ _ _ (ring_pop_front h n xs x Hr))
    as ([] & h1 & Hrun1 & Hr1 & Hb).
  destruct (wp_elim _ _ _ (ring_erase h (List (Some n)) n [] x xs Hr))
    as (it & h2 & Hrun2 & -> & _ & He).
  change (last_of n []) with n in He.
  exists h1, h2. split; [done|]. split; [done|].
  assert (Hx1 : h1 !! x = h !! x) by (eapply bypassed_frame; done).
  split. { rewrite Hx1. by apply cell_fields. }
  split. { intros q Hq. eapply bypassed_frame; [done|..]; set_solver. }
  split; [done|].
  destruct He as (_ & [HnS2 HSn2] & Hx2 & HN2 & HP2).
  destruct Hb as (_ & [HnS1 HSn1] & HN1 & HP1).
  split; [done|]. intros q Hq. apply lookup_fields_eq.
  - destruct (decide (q = n)) as [->|]; [congruence|].
    rewrite HN2, HN1; done.
  - destruct (decide (q = position n xs)) as [->|]; [congruence|].
    rewrite HP2, HP1; done.
Qed.

Lemma pop_front_detaches_first_witness :
  ring store_123 0 (1 :: [2; 3]) ∧
  ∃ h1 h2,
    pop_front (List (Some 0)) store_123 = Some (tt, h1) ∧
    ring h1 0 [2; 3] ∧
    h1 !! 1 = Some (LinkCell (Some 0) (Some (position 0 [2; 3]))) ∧
    (∀ q, q ∉ [0; position 0 [2; 3]] → h1 !! q = store_123 !! q) ∧
    erase (List (Some 0)) (Iterator (Some 1)) store_123
    = Some (Iterator (Some (position 0 [2; 3])), h2) ∧
    h2 !! 1 = Some unset ∧
    ∀ q, q ≠ 1 → h2 !! q = h1 !! q.
Proof.
  split; [by_compute|].
  apply (pop_front_detaches_first store_123 0 1 [2; 3]). by_compute.
Defined.

(** X2.  For a list with sentinel [n] that holds [xs ++ [x]], [pop_back]
    returns and the list then holds [xs]; only the sentinel and the new
    last position are written, so that the link of [x] keeps the two
    pointers it had.  [erase] at the last element leaves the same store
    except for the link of [x], which it resets. *)
Theorem pop_back_detaches_last
    (h : heap) (n : loc) (xs : list loc) (x : loc) :
  ring h n (xs ++ [x]) →
  ∃ h1 h2,
    pop_back (List (Some n)) h = Some (tt, h1) ∧
    ring h1 n xs ∧
    h1 !! x = Some (LinkCell (Some (last_of n xs)) (Some n)) ∧
    (∀ q, q ∉ [last_of n xs; n] → h1 !! q = h !! q) ∧
    erase (List (Some n)) (Iterator (Some x)) h
    = Some (Iterator (Some n), h2) ∧
    h2 !! x = Some unset ∧
    ∀ q, q ≠ x → h2 !! q = h1 !! q.
Proof.
  intros Hr.
  destruct (ring_element_links h n xs x [] Hr)
    as ([HPx HxP] & [Hxn Hnx] & HxP' & Hxn' & _).
  change (position n []) with n in *.
  destruct (wp_elim _ _ _ (ring_pop_back h n xs x Hr))
    as ([] & h1 & Hrun1 & Hr1 & Hb).
  destruct (wp_elim _ _ _ (ring_erase h (List (Some n)) n xs x [] Hr))
    as (it & h2 & Hrun2 & -> & _ & He).
  change (position n []) with n in He.
  exists h1, h2. split; [done|]. split; [done|].
  assert (Hx1 : h1 !! x = h !! x) by (eapply bypassed_frame; done).
  split. { rewrite Hx1. by apply cell_fields. }
  split. { intros q Hq. eapply bypassed_frame; [done|..]; set_solver. }
  split; [done|].
  destruct He as (_ & [HPn2 HnP2] & Hx2 & HN2 & HP2).
  destruct Hb as (_ & [HPn1 HnP1] & HN1 & HP1).
  split; [done|]. intros q Hq. apply lookup_fields_eq.
  - destruct (decide (q = last_of n xs)) as [->|]; [congruence|].
    rewrite HN2, HN1; done.
  - destruct (decide (q = n)) as [->|]; [congruence|].
    rewrite HP2, HP1; done.
Qed.

Lemma pop_back_detaches_last_witness :
  ring store_123 0 ([1; 2] ++ [3]) ∧
  ∃ h1 h2,
    pop_back (List (Some 0)) store_123 = Some (tt, h1) ∧
    ring h1 0 [1; 2] ∧
    h1 !! 3 = Some (LinkCell (Some (last_of 0 [1; 2])) (Some 0)) ∧
    (∀ q, q ∉ [last_of 0 [1; 2]; 0] → h1 !! q = store_123 !! q) ∧
    erase (List (Some 0)) (Iterator (Some 3)) store_123
    = Some (Iterator (Some 0), h2) ∧
    h2 !! 3 = Some unset ∧
    ∀ q, q ≠ 3 → h2 !! q = h1 !! q.
Proof.
  split; [by_compute|].
  apply (pop_back_detaches_last store_123 0 [1; 2] 3). by_compute.
Defined.

(** X3.  On an empty list [pop_front] and [pop_back] return and leave the
    store exactly as it was: the sentinel is its own neighbour, and the
    two assignments write back what is there. *)
Theorem pop_on_empty_list_changes_nothing (h : heap) (n : loc) :
  ring h n [] →
  pop_front (List (Some n)) h = Some (tt, h) ∧
  pop_back (List (Some n)) h = Some (tt, h).
Proof.
  intros Hr. pose proof (ring_position_link h n [] [] Hr) as Hl.
  change (link h n n) in Hl. pose proof Hl as [Hn Hp].
  assert (Hsame : ∀ h', bypassed h h' n n → h' = h).
  { intros h' (_ & [Hn' Hp'] & HN & HP). apply heap_fields_eq; intros q.
    - destruct (decide (q = n)) as [->|]; [congruence | by apply HN].
    - destruct (decide (q = n)) as [->|]; [congruence | by apply HP]. }
  split.
  - destruct (wp_elim _ _ _ (pop_front_bypassed h n n n Hl Hl))
      as ([] & h' & Hrun & Hb).
    by rewrite (Hsame h' Hb) in Hrun.
  - destruct (wp_elim _ _ _ (pop_back_bypassed h n n n Hl Hl))
      as ([] & h' & Hrun & Hb).
    by rewrite (Hsame h' Hb) in Hrun.
Qed.

Lemma pop_on_empty_list_changes_nothing_witness :
  ring store_empty_list 0 [] ∧
  pop_front (List (Some 0)) store_empty_list = Some (tt, store_empty_list) ∧
  pop_back (List (Some 0)) store_empty_list = Some (tt, store_empty_list).
Proof.
  split; [by_compute|].
  apply (pop_on_empty_list_changes_nothing store_empty_list 0). by_compute.
Defined.

(** ** The observers *)

(** X4.  For a list with sentinel [n] that holds [xs], [front()] returns
    the address of the first element and [back()] that of the last one,
    and neither changes the store.  On an empty list neither fails: both
    return the address of the sentinel. *)
Theorem front_and_back_of_a_ring (h : heap) (n : loc) (xs : list loc) :
  ring h n xs →
  front (List (Some n)) h = Some (Some (default n (head xs)), h) ∧
  back (List (Some n)) h = Some (Some (default n (last xs)), h) ∧
  (xs = [] → front (List (Some n)) h = Some (Some n, h) ∧
             back (List (Some n)) h = Some (Some n, h)).
Proof.
  intros Hr. pose proof (ring_front h n xs Hr) as Hf.
  pose proof (ring_back h n xs Hr) as Hb.
  split; [done|]. split; [done|]. by intros ->.
Qed.

Lemma front_and_back_of_a_ring_witness :
  ring store_123 0 [1; 2; 3] ∧
  front (List (Some 0)) store_123
  = Some (Some (default 0 (head [1; 2; 3])), store_123) ∧
  back (List (Some 0)) store_123
  = Some (Some (default 0 (last [1; 2; 3])), store_123) ∧
  ([1; 2; 3] = [] →
   front (List (Some 0)) store_123 = Some (Some 0, store_123) ∧
   back (List (Some 0)) store_123 = Some (Some 0, store_123)).
Proof.
  split; [by_compute|].
  apply (front_and_back_of_a_ring store_123 0 [1; 2; 3]). by_compute.
Defined.

(** X5.  For a list with sentinel [n] that holds [xs], [empty()] returns
    true exactly when [xs] is empty, and exactly when [begin()] and [end()]
    compare equal; [begin()] refers to the first element, [end()] to the
    sentinel, and none of the three changes the store. *)
Theorem empty_iff_begin_is_end (h : heap) (n : loc) (xs : list loc) :
  ring h n xs →
  ∃ b e,
    begin_ (List (Some n)) h = Some (b, h) ∧
    end_ (List (Some n)) h = Some (e, h) ∧
    b = Iterator (Some (default n (head xs))) ∧ e = Iterator (Some n) ∧
    empty (List (Some n)) h = Some (iter_eq b e, h) ∧
    iter_ne b e = negb (iter_eq b e) ∧
    (iter_eq b e = true ↔ xs = []).
Proof.
  intros Hr. pose proof (ring_position_link h n [] xs Hr) as [Hn _].
  change (last_of n []) with n in Hn.
  exists (Iterator (Some (position n xs))), (Iterator (Some n)).
  split. { unfold begin_, bind. cbn [node element]. by rewrite (get_next_nxt _ _ _ Hn). }
  split; [done|]. split; [done|]. split; [done|].
  split. { unfold empty, bind. cbn [node element]. by rewrite (get_next_nxt _ _ _ Hn). }
  split.
  { unfold iter_ne, iter_eq. simpl.
    destruct (decide (Some (position n xs) = Some n)) as [E|E].
    - rewrite (bool_decide_eq_true_2 _ E).
      by rewrite bool_decide_eq_false_2 by auto.
    - rewrite (bool_decide_eq_false_2 _ E).
      by rewrite bool_decide_eq_true_2. }
  unfold iter_eq. simpl. rewrite bool_decide_eq_true. split.
  - intros [= E]. destruct xs as [|a t]; [done|].
    unfold position in E. simpl in E. subst a.
    destruct Hr as [[? _]%NoDup_cons _]. set_solver.
  - by intros ->.
Qed.

Lemma empty_iff_begin_is_end_witness :
  ring store_123 0 [1; 2; 3] ∧
  ∃ b e,
    begin_ (List (Some 0)) store_123 = Some (b, store_123) ∧
    end_ (List (Some 0)) store_123 = Some (e, store_123) ∧
    b = Iterator (Some (default 0 (head [1; 2; 3]))) ∧
    e = Iterator (Some 0) ∧
    empty (List (Some 0)) store_123 = Some (iter_eq b e, store_123) ∧
    iter_ne b e = negb (iter_eq b e) ∧
    (iter_eq b e = true ↔ [1; 2; 3] = []).
Proof.
  split; [by_compute|].
  apply (empty_iff_begin_is_end store_123 0 [1; 2; 3]). by_compute.
Defined.

(** ** Iterators *)

(** X6.  At every position [q] of a ring, the sentinel included, the
    iterator can step both ways without failing and without changing the
    store: [++] leads to a position [s] of the ring from which [--] leads
    back to [q], and [--] leads to a position [p] from which [++] leads
    back to [q].  The postfix forms return the old position.  At the
    sentinel, [++] wraps around to [begin()] and [--] to the last element. *)
Theorem iterator_steps_round_trip
    (h : heap) (n : loc) (xs : list loc) (q : loc) :
  ring h n xs → q ∈ n :: xs →
  (∃ p s, p ∈ n :: xs ∧ s ∈ n :: xs ∧
     iter_incr (Iterator (Some q)) h = Some (Iterator (Some s), h) ∧
     iter_decr (Iterator (Some s)) h = Some (Iterator (Some q), h) ∧
     iter_decr (Iterator (Some q)) h = Some (Iterator (Some p), h) ∧
     iter_incr (Iterator (Some p)) h = Some (Iterator (Some q), h) ∧
     iter_post_incr (Iterator (Some q)) h
     = Some ((Iterator (Some q), Iterator (Some s)), h) ∧
     iter_post_decr (Iterator (Some q)) h
     = Some ((Iterator (Some q), Iterator (Some p)), h)) ∧
  iter_incr (Iterator (Some n)) h
  = Some (Iterator (Some (default n (head xs))), h) ∧
  iter_decr (Iterator (Some n)) h
  = Some (Iterator (Some (default n (last xs))), h).
Proof.
  intros Hr Hq.
  assert (Hi : ∀ a b, nxt h a = Some (Some b) →
            iter_incr (Iterator (Some a)) h = Some (Iterator (Some b), h)).
  { intros a b Hab. unfold iter_incr, bind. cbn [node element].
    by rewrite (get_next_nxt _ _ _ Hab). }
  assert (Hd : ∀ a b, prv h b = Some (Some a) →
            iter_decr (Iterator (Some b)) h = Some (Iterator (Some a), h)).
  { intros a b Hab. unfold iter_decr, bind. cbn [node element].
    by rewrite (get_prev_prv _ _ _ Hab). }
  split; [|split].
  - destruct (cyc_cell h _ q Hr Hq)
      as (p & s & Hp & Hs & _ & [Hpq Hqp] & [Hqs Hsq]).
    exists p, s. split; [done|]. split; [done|].
    split; [by apply Hi|]. split; [by apply Hd|].
    split; [by apply Hd|]. split; [by apply Hi|]. split.
    + unfold iter_post_incr, bind. cbn [node element].
      by rewrite (get_next_nxt _ _ _ Hqs).
    + unfold iter_post_decr, bind. cbn [node element].
      by rewrite (get_prev_prv _ _ _ Hqp).
  - apply Hi. by destruct (ring_position_link h n [] xs Hr).
  - apply Hd. pose proof (ring_position_link h n xs []) as Hl.
    rewrite app_nil_r in Hl. by destruct (Hl Hr).
Qed.

Lemma iterator_steps_round_trip_witness :
  ring store_123 0 [1; 2; 3] ∧ 3 ∈ 0 :: [1; 2; 3] ∧
  (∃ p s, p ∈ 0 :: [1; 2; 3] ∧ s ∈ 0 :: [1; 2; 3] ∧
     iter_incr (Iterator (Some 3)) store_123
     = Some (Iterator (Some s), store_123) ∧
     iter_decr (Iterator (Some s)) store_123
     = Some (Iterator (Some 3), store_123) ∧
     iter_decr (Iterator (Some 3)) store_123
     = Some (Iterator (Some p), store_123) ∧
     iter_incr (Iterator (Some p)) store_123
     = Some (Iterator (Some 3), store_123) ∧
     iter_post_incr (Iterator (Some 3)) store_123
     = Some ((Iterator (Some 3), Iterator (Some s)), store_123) ∧
     iter_post_decr (Iterator (Some 3)) store_123
     = Some ((Iterator (Some 3), Iterator (Some p)), store_123)) ∧
  iter_incr (Iterator (Some 0)) store_123
  = Some (Iterator (Some (default 0 (head [1; 2; 3]))), store_123) ∧
  iter_decr (Iterator (Some 0)) store_123
  = Some (Iterator (Some (default 0 (last [1; 2; 3]))), store_123).
Proof.
  split; [by_compute|]. split; [by_compute|].
  apply (iterator_steps_round_trip store_123 0 [1; 2; 3] 3); by_compute.
Defined.

(** ** [push_front] *)

(** X7.  For a list with sentinel [n] that holds [xs] and a link [x] that
    exists and is not linked in the list, [push_front] returns, the list
    then holds [x :: xs], [front()] returns [x], and only the sentinel,
    [x] and the former first position are written.  [insert] at [begin()]
    leaves the very same store. *)
Theorem push_front_is_insert_at_begin
    (h : heap) (n : loc) (xs : list loc) (x : loc) :
  ring h n xs → x ∈ dom h → x ∉ n :: xs →
  ∃ h',
    push_front (List (Some n)) x h = Some (tt, h') ∧
    ring h' n (x :: xs) ∧
    front (List (Some n)) h' = Some (Some x, h') ∧
    (∀ q, q ∉ [n; x; default n (head xs)] → h' !! q = h !! q) ∧
    insert (List (Some n)) (Iterator (Some (default n (head xs)))) x h
    = Some (Iterator (Some x), h').
Proof.
  intros Hr Hx Hnin.
  destruct (wp_elim _ _ _ (ring_push_front h n xs x Hr Hx Hnin))
    as ([] & h1 & Hrun1 & Hr1 & Hl1).
  destruct (wp_elim _ _ _
              (ring_insert h (List (Some n)) n [] xs x Hr Hx Hnin))
    as (it & h2 & Hrun2 & -> & _ & Hl2).
  change (last_of n []) with n in Hl2.
  rewrite <-(linked_in_unique _ _ _ _ _ _ Hl1 Hl2) in Hrun2.
  exists h1. split; [done|]. split; [done|].
  split. { by rewrite (ring_front _ _ _ Hr1). }
  split; [|done].
  intros q Hq. eapply linked_in_frame; [exact Hl1|..];
    fold (position n xs) in Hq; set_solver.
Qed.

Lemma push_front_is_insert_at_begin_witness :
  ring store_123 0 [1; 2; 3] ∧ 4 ∈ dom store_123 ∧ (4 ∉ 0 :: [1; 2; 3]) ∧
  ∃ h',
    push_front (List (Some 0)) 4 store_123 = Some (tt, h') ∧
    ring h' 0 (4 :: [1; 2; 3]) ∧
    front (List (Some 0)) h' = Some (Some 4, h') ∧
    (∀ q, q ∉ [0; 4; default 0 (head [1; 2; 3])] →
          h' !! q = store_123 !! q) ∧
    insert (List (Some 0)) (Iterator (Some (default 0 (head [1; 2; 3])))) 4
      store_123 = Some (Iterator (Some 4), h').
Proof.
  split; [by_compute|]. split; [by_compute|]. split; [by_compute|].
  apply (push_front_is_insert_at_begin store_123 0 [1; 2; 3] 4); by_compute.
Defined.

(** ** [erase] and [insert] compose *)

(** X8.  Erasing an element and inserting it again before the iterator
    that [erase] returned restores the store exactly, and [insert] returns
    an iterator to the element. *)
Theorem erase_then_insert_restores
    (h : heap) (n : loc) (xs1 : list loc) (x : loc) (xs2 : list loc) :
  ring h n (xs1 ++ x :: xs2) →
  ∃ it h1,
    erase (List (Some n)) (Iterator (Some x)) h = Some (it, h1) ∧
    h1 !! x = Some unset ∧
    insert (List (Some n)) it x h1 = Some (Iterator (Some x), h).
Proof.
  intros Hr.
  destruct (ring_element_links h n xs1 x xs2 Hr)
    as ([HPx HxP] & [HxS HSx] & _ & _ & Hnin).
  destruct (wp_elim _ _ _ (ring_erase h (List (Some n)) n xs1 x xs2 Hr))
    as (it & h1 & Hrun1 & -> & Hr1 & He).
  pose proof He as (Hdom & _ & Hx1 & HN1 & HP1).
  assert (Hx : x ∈ dom h1).
  { rewrite Hdom. by eapply nxt_Some_dom. }
  destruct (wp_elim _ _ _
              (ring_insert h1 (List (Some n)) n xs1 xs2 x Hr1 Hx Hnin))
    as (it' & h2 & Hrun2 & -> & _ & Hl).
  destruct Hl as (_ & [HPx2 HxP2] & [HxS2 HSx2] & HN2 & HP2).
  assert (h2 = h) as ->.
  { apply heap_fields_eq; intros q.
    - destruct (decide (q = last_of n xs1)) as [->|]; [congruence|].
      destruct (decide (q = x)) as [->|]; [congruence|].
      rewrite HN2, HN1; done.
    - destruct (decide (q = position n xs2)) as [->|]; [congruence|].
      destruct (decide (q = x)) as [->|]; [congruence|].
      rewrite HP2, HP1; done. }
  by exists (Iterator (Some (position n xs2))), h1.
Qed.

Lemma erase_then_insert_restores_witness :
  ring store_123 0 ([1] ++ 2 :: [3]) ∧
  ∃ it h1,
    erase (List (Some 0)) (Iterator (Some 2)) store_123 = Some (it, h1) ∧
    h1 !! 2 = Some unset ∧
    insert (List (Some 0)) it 2 h1 = Some (Iterator (Some 2), store_123).
Proof.
  split; [by_compute|].
  apply (erase_then_insert_restores store_123 0 [1] 2 [3]). by_compute.
Defined.

(** ** [splice] composes with itself *)

(** X9.  Splicing a range out of a list [M] into a distinct list [L], and
    then splicing the same range from [L] back to where it was in [M],
    restores the store exactly. *)
Theorem splice_there_and_back
    (h : heap) (nL : loc) (xs1 xs2 : list loc)
    (nM : loc) (ys1 r ys2 : list loc) :
  ring h nL (xs1 ++ xs2) → ring h nM (ys1 ++ r ++ ys2) →
  apart (nL :: xs1 ++ xs2) (nM :: ys1 ++ r ++ ys2) →
  ∃ h1,
    splice (List (Some nL)) (Iterator (Some (position nL xs2)))
      (List (Some nM)) (Iterator (Some (position (position nM ys2) r)))
      (Iterator (Some (position nM ys2))) h = Some (tt, h1) ∧
    ring h1 nL (xs1 ++ r ++ xs2) ∧ ring h1 nM (ys1 ++ ys2) ∧
    splice (List (Some nM)) (Iterator (Some (position nM ys2)))
      (List (Some nL)) (Iterator (Some (position (position nL xs2) r)))
      (Iterator (Some (position nL xs2))) h1 = Some (tt, h).
Proof.
  intros HL HM Hap. pose proof (proj1 (apart_spec _ _) Hap) as Hdisj.
  destruct r as [|f r'].
  - exists h. split; [apply splice_empty_range|]. split; [done|].
    split; [done|]. apply splice_empty_range.
  - destruct (last (f :: r')) as [pl|] eqn:Hpl.
    2:{ by apply last_None in Hpl. }
    assert (Hf : head (f :: r') = Some f) by done.
    change (position (position nM ys2) (f :: r')) with f.
    change (position (position nL xs2) (f :: r')) with f.
    destruct (wp_elim _ _ _
                (ring_splice_other h (List (Some nL)) (List (Some nM))
                   nL xs1 xs2 nM ys1 (f :: r') ys2 f pl HL HM Hdisj Hf Hpl))
      as ([] & h1 & Hrun1 & HL1 & HM1 & Hre1).
    assert (Hdisj2 : ∀ q, q ∈ nM :: ys1 ++ ys2 →
                          q ∉ nL :: xs1 ++ (f :: r') ++ xs2).
    { destruct HM as [Hnd _]. revert Hnd.
      rewrite NoDup_cons, !NoDup_app. clear -Hdisj. set_solver. }
    destruct (wp_elim _ _ _
                (ring_splice_other h1 (List (Some nM)) (List (Some nL))
                   nM ys1 ys2 nL xs1 (f :: r') xs2 f pl HM1 HL1 Hdisj2
                   Hf Hpl))
      as ([] & h2 & Hrun2 & _ & _ & Hre2).
    pose proof (ring_position_link h nL xs1 xs2 HL) as [HPS HSP].
    destruct (ring_element_links h nM ys1 f (r' ++ ys2) HM)
      as ([HAf HfA] & _).
    assert (HplL : link h pl (position nM ys2)).
    { pose proof (ring_position_link h nM (ys1 ++ f :: r') ys2) as Hl.
      rewrite <-app_assoc in Hl. specialize (Hl HM).
      unfold last_of in Hl. by rewrite last_app, Hpl in Hl. }
    destruct HplL as [HplL HLpl].
    destruct Hre1 as (_ & _ & _ & _ & HN1 & HP1).
    destruct Hre2 as (_ & [HPS2 HSP2] & [HAf2 HfA2] & [HplL2 HLpl2]
                      & HN2 & HP2).
    assert (h2 = h) as ->.
    { apply heap_fields_eq; intros q.
      - destruct (decide (q = last_of nM ys1)) as [->|]; [congruence|].
        destruct (decide (q = pl)) as [->|]; [congruence|].
        destruct (decide (q = last_of nL xs1)) as [->|]; [congruence|].
        rewrite HN2, HN1; done.
      - destruct (decide (q = position nM ys2)) as [->|]; [congruence|].
        destruct (decide (q = f)) as [->|]; [congruence|].
        destruct (decide (q = position nL xs2)) as [->|]; [congruence|].
        rewrite HP2, HP1; done. }
    by exists h1.
Qed.

Lemma splice_there_and_back_witness :
  ring store_two_lists 10 ([11] ++ [12]) ∧
  ring store_two_lists 0 ([1] ++ [2; 3] ++ []) ∧
  apart (10 :: [11] ++ [12]) (0 :: [1] ++ [2; 3] ++ []) ∧
  ∃ h1,
    splice (List (Some 10)) (Iterator (Some (position 10 [12])))
      (List (Some 0)) (Iterator (Some (position (position 0 []) [2; 3])))
      (Iterator (Some (position 0 []))) store_two_lists = Some (tt, h1) ∧
    ring h1 10 ([11] ++ [2; 3] ++ [12]) ∧ ring h1 0 ([1] ++ []) ∧
    splice (List (Some 0)) (Iterator (Some (position 0 [])))
      (List (Some 10)) (Iterator (Some (position (position 10 [12]) [2; 3])))
      (Iterator (Some (position 10 [12]))) h1 = Some (tt, store_two_lists).
Proof.
  split; [by_compute|]. split; [by_compute|]. split; [by_compute|].
  apply (splice_there_and_back store_two_lists 10 [11] [12] 0 [1] [2; 3] []);
    by_compute.
Defined.

(** ** The sentinel as the receiver of [unlink] and [erase] *)

Section sentinel.
Implicit Types (h : heap) (xs : list loc) (n q : loc).

(** [unlink] on a cell that is its own neighbour. *)
Lemma unlink_self_loop h n :
  link h n n →
  wp (unlink (Some n)) h
     (λ _ h', h' !! n = Some unset ∧ ∀ q, q ≠ n → h' !! q = h !! q).
Proof.
  intros [HN HP]. unfold unlink. wp_run. split.
  - apply lookup_unset. fld_dom.
  - intros q Hq. apply lookup_fields_eq; by fld.
Qed.

(** [erase] at a cell that is its own neighbour. *)
Lemma erase_self_loop h this n :
  link h n n →
  wp (erase this (Iterator (Some n))) h
     (λ it h', it = Iterator (Some n) ∧ h' !! n = Some unset ∧
               ∀ q, q ≠ n → h' !! q = h !! q).
Proof.
  intros [HN HP]. unfold erase.
  apply wp_bind. eapply mutable_of_pos; [by split|]. wp_run.
  unfold unlink. wp_run. split; [done|]. split.
  - apply lookup_unset. fld_dom.
  - intros q Hq. apply lookup_fields_eq; by fld.
Qed.

(** Taking the sentinel out of a ring of one element or more leaves the
    elements in a circular chain of their own. *)
Lemma ring_without_sentinel h h' n xs :
  ring h n xs → xs ≠ [] →
  erased h h' (default n (last xs)) n (default n (head xs)) →
  cyc h' xs ∧ ∀ q, q ∉ n :: xs → h' !! q = h !! q.
Proof.
  intros Hr Hne He.
  destruct (last xs) as [P|] eqn:HP; [|by apply last_None in HP].
  destruct (head xs) as [S|] eqn:HS; [|by apply head_None in HS].
  simpl in He. pose proof He as (_ & HPS & _ & HN & HPv).
  assert (n ∉ xs) by (by destruct Hr as [[??]%NoDup_cons _]).
  split.
  - eapply cyc_unlinked; [exact Hr | exact HP | exact HS | exact HPS | |].
    + intros q Hq ?. apply HN; [done | set_solver].
    + intros q Hq ?. apply HPv; [done | set_solver].
  - intros q Hq. apply last_Some_elem_of in HP. apply head_Some_elem_of in HS.
    eapply erased_frame; [exact He|..]; set_solver.
Qed.

Lemma ring_sentinel_links h n xs :
  ring h n xs → xs ≠ [] →
  link h (default n (last xs)) n ∧ link h n (default n (head xs)) ∧
  n ≠ default n (last xs) ∧ n ≠ default n (head xs).
Proof.
  intros Hr Hne.
  destruct (last xs) as [P|] eqn:HP; [|by apply last_None in HP].
  destruct (head xs) as [S|] eqn:HS; [|by apply head_None in HS].
  simpl. exact (cyc_head_links _ _ _ _ _ Hr HP HS).
Qed.
End sentinel.

(** X10.  Destroying a list ([delete(node)], which runs [unlink] on the
    sentinel and releases it) returns; the storage of the sentinel is gone
    and no other cell outside the list has changed.  The elements are not
    reset: when there are any, they are left in a circular chain of their
    own, in which the first and the last one are neighbours, so that none
    of them points at the released sentinel. *)
Theorem list_destruction_closes_the_elements
    (h : heap) (n : loc) (xs : list loc) :
  ring h n xs →
  ∃ h', list_dtor (List (Some n)) h = Some (tt, h') ∧
        h' !! n = None ∧
        (∀ q, q ∉ n :: xs → h' !! q = h !! q) ∧
        (xs ≠ [] → cyc h' xs) ∧
        ∀ q c, q ∈ xs → h' !! q = Some c →
               (∃ p s, c = LinkCell (Some p) (Some s) ∧ p ∈ xs ∧ s ∈ xs) ∧
               prev c ≠ Some n ∧ next c ≠ Some n.
Proof.
  intros Hr.
  assert (Hnx : n ∉ xs) by (by destruct Hr as [[??]%NoDup_cons _]).
  assert (∃ h1, unlink (Some n) h = Some (tt, h1) ∧ h1 !! n = Some unset ∧
                (∀ q, q ∉ n :: xs → h1 !! q = h !! q) ∧
                (xs ≠ [] → cyc h1 xs)) as (h1 & Hrun & Hn1 & Hf1 & Hc1).
  { destruct (decide (xs = [])) as [->|Hne].
    - pose proof (ring_position_link h n [] [] Hr) as Hl.
      destruct (wp_elim _ _ _ (unlink_self_loop h n Hl))
        as ([] & h1 & Hrun & Hn1 & Hf1).
      exists h1. split; [done|]. split; [done|]. split; [|done].
      intros q Hq. apply Hf1. set_solver.
    - destruct (ring_sentinel_links h n xs Hr Hne) as (HPn & HnS & ? & ?).
      destruct (wp_elim _ _ _ (unlink_erased h _ n _ HPn HnS ltac:(done)
                                 ltac:(done)))
        as ([] & h1 & Hrun & He).
      destruct (ring_without_sentinel h h1 n xs Hr Hne He) as [Hc Hf].
      exists h1. split; [done|]. split; [by destruct He as (_ & _ & ? & _)|].
      by split. }
  exists (delete n h1). split; [|split; [|split; [|split]]].
  - unfold list_dtor, list_element_dtor, bind. simpl. rewrite Hrun.
    unfold release. by rewrite Hn1.
  - apply lookup_delete_eq.
  - intros q Hq. rewrite lookup_delete_ne by set_solver. by apply Hf1.
  - intros Hne. eapply cyc_frame; [by apply Hc1|].
    intros q Hq. rewrite lookup_delete_ne; [done|]. by intros ->.
  - intros q c Hq Hc.
    assert (Hne : xs ≠ []) by (intros ->; by apply not_elem_of_nil in Hq).
    rewrite lookup_delete_ne in Hc by (by intros ->).
    destruct (cyc_cell h1 xs q (Hc1 Hne) Hq) as (p & s & Hp & Hs & Hc' & _).
    rewrite Hc in Hc'. injection Hc' as ->. simpl.
    split; [by exists p, s|]. split; intros [= ->]; done.
Qed.

Lemma list_destruction_closes_the_elements_witness :
  ring store_123 0 [1; 2; 3] ∧
  ∃ h', list_dtor (List (Some 0)) store_123 = Some (tt, h') ∧
        h' !! 0 = None ∧
        (∀ q, q ∉ 0 :: [1; 2; 3] → h' !! q = store_123 !! q) ∧
        ([1; 2; 3] ≠ [] → cyc h' [1; 2; 3]) ∧
        ∀ q c, q ∈ [1; 2; 3] → h' !! q = Some c →
               (∃ p s, c = LinkCell (Some p) (Some s) ∧
                       p ∈ [1; 2; 3] ∧ s ∈ [1; 2; 3]) ∧
               prev c ≠ Some 0 ∧ next c ≠ Some 0.
Proof.
  split; [by_compute|].
  apply (list_destruction_closes_the_elements store_123 0 [1; 2; 3]).
  by_compute.
Defined.

(** X11.  The code does not check the position that [erase] is given: at
    [end()] it returns too, with an iterator to [begin()], and it is the
    sentinel that is unlinked and reset.  The elements, when there are any,
    are left in a circular chain of their own, and the list object is no
    longer usable: [empty()] returns false and [begin()] holds a null
    pointer. *)
Theorem erase_at_end_unlinks_the_sentinel
    (h : heap) (n : loc) (xs : list loc) :
  ring h n xs →
  ∃ h', erase (List (Some n)) (Iterator (Some n)) h
        = Some (Iterator (Some (default n (head xs))), h') ∧
        h' !! n = Some unset ∧
        (∀ q, q ∉ n :: xs → h' !! q = h !! q) ∧
        (xs ≠ [] → cyc h' xs) ∧
        empty (List (Some n)) h' = Some (false, h') ∧
        begin_ (List (Some n)) h' = Some (Iterator None, h').
Proof.
  intros Hr.
  assert (∃ h', erase (List (Some n)) (Iterator (Some n)) h
                = Some (Iterator (Some (default n (head xs))), h') ∧
                h' !! n = Some unset ∧
                (∀ q, q ∉ n :: xs → h' !! q = h !! q) ∧
                (xs ≠ [] → cyc h' xs)) as (h' & Hrun & Hn & Hf & Hc).
  { destruct (decide (xs = [])) as [->|Hne].
    - pose proof (ring_position_link h n [] [] Hr) as Hl.
      destruct (wp_elim _ _ _ (erase_self_loop h (List (Some n)) n Hl))
        as (it & h' & Hrun & -> & Hn & Hf).
      exists h'. split; [done|]. split; [done|]. split; [|done].
      intros q Hq. apply Hf. set_solver.
    - destruct (ring_sentinel_links h n xs Hr Hne) as (HPn & HnS & ? & ?).
      destruct (wp_elim _ _ _
                  (erase_erased h (List (Some n)) _ n _ HPn HnS ltac:(done)
                     ltac:(done)))
        as (it & h' & Hrun & -> & He).
      destruct (ring_without_sentinel h h' n xs Hr Hne He) as [Hc Hf].
      exists h'. split; [done|]. split; [by destruct He as (_ & _ & ? & _)|].
      by split. }
  exists h'. repeat (split; [done|]).
  unfold empty, begin_, bind, get_next. cbn [node]. rewrite Hn. by split.
Qed.

Lemma erase_at_end_unlinks_the_sentinel_witness :
  ring store_123 0 [1; 2; 3] ∧
  ∃ h', erase (List (Some 0)) (Iterator (Some 0)) store_123
        = Some (Iterator (Some (default 0 (head [1; 2; 3]))), h') ∧
        h' !! 0 = Some unset ∧
        (∀ q, q ∉ 0 :: [1; 2; 3] → h' !! q = store_123 !! q) ∧
        ([1; 2; 3] ≠ [] → cyc h' [1; 2; 3]) ∧
        empty (List (Some 0)) h' = Some (false, h') ∧
        begin_ (List (Some 0)) h' = Some (Iterator None, h').
Proof.
  split; [by_compute|].
  apply (erase_at_end_unlinks_the_sentinel store_123 0 [1; 2; 3]).
  by_compute.
Defined.

(** ** Construction and self-assignment *)

(** X12.  Move-assigning a list to itself returns with the list empty:
    [clear] resets the sentinel before the sentinel pointer is swapped with
    itself.  No other cell is written, so the former elements are lost to
    the list and keep their old pointers. *)
Theorem self_move_assignment_empties
    (h : heap) (n : loc) (xs : list loc) :
  ring h n xs →
  ∃ h', list_move_assign (List (Some n)) (List (Some n)) h
        = Some ((List (Some n), List (Some n)), h') ∧
        ring h' n [] ∧
        traverse_forward (List (Some n)) h' = Some ([], h') ∧
        (∀ q, q ≠ n → h' !! q = h !! q).
Proof.
  intros Hr. destruct (ring_clear h n xs Hr) as (h' & Hrun & Hr' & ->).
  eexists. split. { unfold list_move_assign, bind. by rewrite Hrun. }
  split; [done|]. split; [by apply ring_traverse in Hr' as [? _]|].
  intros q Hq. by rewrite lookup_insert_ne.
Qed.

Lemma self_move_assignment_empties_witness :
  ring store_123 0 [1; 2; 3] ∧
  ∃ h', list_move_assign (List (Some 0)) (List (Some 0)) store_123
        = Some ((List (Some 0), List (Some 0)), h') ∧
        ring h' 0 [] ∧
        traverse_forward (List (Some 0)) h' = Some ([], h') ∧
        (∀ q, q ≠ 0 → h' !! q = store_123 !! q).
Proof.
  split; [by_compute|].
  apply (self_move_assignment_empties store_123 0 [1; 2; 3]). by_compute.
Defined.

(** X13.  In every store the constructor [list()] returns a list whose
    sentinel is a new cell; the list is empty, no cell that existed has
    changed, and every list that was a ring is the same ring afterwards,
    with the new sentinel outside of it. *)
Theorem list_construction_is_fresh_and_empty (h : heap) :
  ∃ m h', list_ctor h = Some (List (Some m), h') ∧
          h !! m = None ∧
          ring h' m [] ∧
          empty (List (Some m)) h' = Some (true, h') ∧
          (∀ q, q ≠ m → h' !! q = h !! q) ∧
          ∀ n xs, ring h n xs → ring h' n xs ∧ m ∉ n :: xs.
Proof.
  destruct (ring_list_ctor h) as (m & h' & Hrun & Hm & Hr' & Hf).
  exists m, h'. split; [done|].
  split; [by apply not_elem_of_dom|]. split; [done|]. split.
  { pose proof (ring_empty_iff _ _ _ Hr') as He.
    by rewrite bool_decide_eq_true_2 in He. }
  split; [done|]. intros n xs Hr.
  assert (Hnin : m ∉ n :: xs).
  { intros Hin. apply Hm. by eapply ring_dom. }
  split; [|done]. eapply ring_frame; [exact Hr|].
  intros q Hq. apply Hf. by intros ->.
Qed.

(** ** Popped elements can be pushed again *)

(** X14.  [pop_back] followed by [push_back] of the element that was popped
    restores the store exactly: the pointers that [pop_back] left in the
    popped link do not get in the way, [push_back] overwrites both. *)
Theorem pop_back_then_push_back_restores
    (h : heap) (n : loc) (xs : list loc) (x : loc) :
  ring h n (xs ++ [x]) →
  ∃ h1, pop_back (List (Some n)) h = Some (tt, h1) ∧
        ring h1 n xs ∧
        push_back (List (Some n)) x h1 = Some (tt, h).
Proof.
  intros Hr.
  destruct (ring_element_links h n xs x [] Hr)
    as ([HPx HxP] & [Hxn Hnx] & HxP' & Hxn' & Hnin).
  change (position n []) with n in *. rewrite app_nil_r in Hnin.
  destruct (wp_elim _ _ _ (ring_pop_back h n xs x Hr))
    as ([] & h1 & Hrun1 & Hr1 & Hb).
  pose proof Hb as (Hdom & _ & HN1 & HP1).
  assert (Hx : x ∈ dom h1).
  { rewrite Hdom. by eapply nxt_Some_dom. }
  destruct (wp_elim _ _ _ (ring_push_back h1 n xs x Hr1 Hx Hnin))
    as ([] & h2 & Hrun2 & _ & Hl).
  destruct Hl as (_ & [HPx2 HxP2] & [Hxn2 Hnx2] & HN2 & HP2).
  assert (h2 = h) as ->.
  { apply heap_fields_eq; intros q.
    - destruct (decide (q = last_of n xs)) as [->|]; [congruence|].
      destruct (decide (q = x)) as [->|]; [congruence|].
      rewrite HN2, HN1; done.
    - destruct (decide (q = n)) as [->|]; [congruence|].
      destruct (decide (q = x)) as [->|]; [congruence|].
      rewrite HP2, HP1; done. }
  by exists h1.
Qed.

Lemma pop_back_then_push_back_restores_witness :
  ring store_123 0 ([1; 2] ++ [3]) ∧
  ∃ h1, pop_back (List (Some 0)) store_123 = Some (tt, h1) ∧
        ring h1 0 [1; 2] ∧
        push_back (List (Some 0)) 3 h1 = Some (tt, store_123).
Proof.
  split; [by_compute|].
  apply (pop_back_then_push_back_restores store_123 0 [1; 2] 3). by_compute.
Defined.

(** X15.  [pop_front] followed by [push_front] of the element that was
    popped restores the store exactly. *)
Theorem pop_front_then_push_front_restores
    (h : heap) (n x : loc) (xs : list loc) :
  ring h n (x :: xs) →
  ∃ h1, pop_front (List (Some n)) h = Some (tt, h1) ∧
        ring h1 n xs ∧
        push_front (List (Some n)) x h1 = Some (tt, h).
Proof.
  intros Hr.
  destruct (ring_element_links h n [] x xs Hr)
    as ([Hnx Hxn] & [HxS HSx] & Hxn' & HxS' & Hnin).
  change (last_of n []) with n in *. simpl in Hnin.
  destruct (wp_elim _ _ _ (ring_pop_front h n xs x Hr))
    as ([] & h1 & Hrun1 & Hr1 & Hb).
  pose proof Hb as (Hdom & _ & HN1 & HP1).
  assert (Hx : x ∈ dom h1).
  { rewrite Hdom. by eapply nxt_Some_dom. }
  destruct (wp_elim _ _ _ (ring_push_front h1 n xs x Hr1 Hx Hnin))
    as ([] & h2 & Hrun2 & _ & Hl).
  destruct Hl as (_ & [Hnx2 Hxn2] & [HxS2 HSx2] & HN2 & HP2).
  assert (h2 = h) as ->.
  { apply heap_fields_eq; intros q.
    - destruct (decide (q = n)) as [->|]; [congruence|].
      destruct (decide (q = x)) as [->|]; [congruence|].
      rewrite HN2, HN1; done.
    - destruct (decide (q = position n xs)) as [->|]; [congruence|].
      destruct (decide (q = x)) as [->|]; [congruence|].
      rewrite HP2, HP1; done. }
  by exists h1.
Qed.

Lemma pop_front_then_push_front_restores_witness :
  ring store_123 0 (1 :: [2; 3]) ∧
  ∃ h1, pop_front (List (Some 0)) store_123 = Some (tt, h1) ∧
        ring h1 0 [2; 3] ∧
        push_front (List (Some 0)) 1 h1 = Some (tt, store_123).
Proof.
  split; [by_compute|].
  apply (pop_front_then_push_front_restores store_123 0 1 [2; 3]).
  by_compute.
Defined.

(** ** [erase] and [unlink] *)

(** X16.  For an element of a list, [erase] at its position leaves exactly
    the store that [unlink] on the element leaves: the two assignments
    that [erase] makes before it calls [unlink] change nothing that
    [unlink] would not write itself. *)
Theorem erase_leaves_what_unlink_leaves
    (h : heap) (n : loc) (xs1 : list loc) (x : loc) (xs2 : list loc) :
  ring h n (xs1 ++ x :: xs2) →
  ∃ it h', erase (List (Some n)) (Iterator (Some x)) h = Some (it, h') ∧
           unlink (Some x) h = Some (tt, h').
Proof.
  intros Hr.
  destruct (wp_elim _ _ _ (ring_erase h (List (Some n)) n xs1 x xs2 Hr))
    as (it & h1 & Hrun1 & _ & _ & He1).
  destruct (wp_elim _ _ _ (ring_unlink h n xs1 x xs2 Hr))
    as ([] & h2 & Hrun2 & _ & He2).
  destruct He1 as (_ & [HPS1 HSP1] & Hx1 & HN1 & HP1).
  destruct He2 as (_ & [HPS2 HSP2] & Hx2 & HN2 & HP2).
  assert (h2 = h1) as ->.
  { apply heap_fields_eq; intros q.
    - destruct (decide (q = x)) as [->|].
      { unfold nxt. by rewrite Hx1, Hx2. }
      destruct (decide (q = last_of n xs1)) as [->|]; [congruence|].
      rewrite HN2, HN1; done.
    - destruct (decide (q = x)) as [->|].
      { unfold prv. by rewrite Hx1, Hx2. }
      destruct (decide (q = position n xs2)) as [->|]; [congruence|].
      rewrite HP2, HP1; done. }
  by exists it, h1.
Qed.

Lemma erase_leaves_what_unlink_leaves_witness :
  ring store_123 0 ([1] ++ 2 :: [3]) ∧
  ∃ it h', erase (List (Some 0)) (Iterator (Some 2)) store_123
           = Some (it, h') ∧
           unlink (Some 2) store_123 = Some (tt, h').
Proof.
  split; [by_compute|].
  apply (erase_leaves_what_unlink_leaves store_123 0 [1] 2 [3]). by_compute.
Defined.
